(** * run_inference.py: a shallow embedding and its verified properties

    The script drives tsinfer over a sample-data file: it derives a rate
    array from site positions ([setup_sample_file], [physical_to_genetic]),
    picks a precision, runs the three inference stages and summarises the
    inferred tree sequence ([run]).

    Number model.  A finite float64 is modelled by the rational it denotes
    ([Q]) and arithmetic on finite values is exact.  The operations that
    leave the finite values from finite operands keep their IEEE results:
    division by zero and the quantile of an empty array give [PInf],
    [NInf] or [NaN]; [log10] of zero is [NInf] and of a negative number
    [NaN].  The value of a logarithm is a real number ([R]).

    World model.  tsinfer, tskit, stdpopsim and the file system are an
    [Engine]: a record of the outcomes of their calls, each a value or a
    failure of the library.  [run] threads a log of these calls and the
    set of files written so far; the only exception a library call hands
    to the script under another name is the FileNotFoundError of opening
    a file that does not exist. *)

From Stdlib Require Import ZArith QArith Qround Qminmax Qreals Reals Psatz.
From Stdlib Require Import List String Ascii Bool DecimalString.
Import ListNotations.

Local Open Scope Z_scope.

(** ** Python exceptions and results *)

Module Py.

Inductive exn : Type :=
| ValueError (msg : string)
| OverflowError (msg : string)
| UnboundLocalError (name : string)
| AssertionError
| ZeroDivisionError
| FileNotFoundError (file : string)
| TypeError (msg : string)
| ExternalError (msg : string).   (* raised inside tsinfer, tskit, stdpopsim or the OS *)

Inductive result (A : Type) : Type :=
| Ok (a : A)
| Raise (e : exn).

Arguments Ok {A} a.
Arguments Raise {A} e.

Definition bind {A B} (r : result A) (k : A -> result B) : result B :=
  match r with
  | Ok a => k a
  | Raise e => Raise e
  end.

(** [min(m, x)] of the builtin: the running minimum is replaced only by a
    strictly smaller item. *)
Definition min2 (m x : Q) : Q := if Qlt_le_dec x m then x else m.

Definition min3 (a b c : Q) : Q := min2 (min2 a b) c.

(** [a / b] on Python numbers. *)
Definition div (a b : Q) : result Q :=
  if Qeq_bool b 0 then Raise ZeroDivisionError else Ok (a / b)%Q.

End Py.

Export Py.

Notation "x <- r ;; k" := (Py.bind r (fun x => k))
  (at level 61, r at next level, right associativity).

(** ** numpy values and operations *)

Module Np.

(** A float64 whose finite values are carried by [A]. *)
Inductive float (A : Type) : Type :=
| Fin (x : A)
| PInf
| NInf
| NaN.

Arguments Fin {A} x.
Arguments PInf {A}.
Arguments NInf {A}.
Arguments NaN {A}.

Definition log10R (x : R) : R := (ln x / ln 10)%R.

(** [np.log10]: a warning, not an exception, outside the positive numbers. *)
Definition log10 (x : float Q) : float R :=
  match x with
  | Fin q =>
      match (0 ?= q)%Q with
      | Lt => Fin (log10R (Q2R q))
      | Eq => NInf
      | Gt => NaN
      end
  | PInf => PInf
  | NInf => NaN
  | NaN => NaN
  end.

Definition neg (x : float R) : float R :=
  match x with
  | Fin r => Fin (- r)%R
  | PInf => NInf
  | NInf => PInf
  | NaN => NaN
  end.

(** [np.minimum] of two values: a NaN wins. *)
Definition minimum (a b : float R) : float R :=
  match a, b with
  | NaN, _ | _, NaN => NaN
  | NInf, _ | _, NInf => NInf
  | PInf, x | x, PInf => x
  | Fin x, Fin y => Fin (Rmin x y)
  end.

(** [np.min] of an array: no identity for the empty one. *)
Definition min {A} (minimum : A -> A -> A) (a : list A) : result A :=
  match a with
  | [] => Raise (ValueError
            "zero-size array to reduction operation minimum which has no identity")
  | x :: t => Ok (fold_left minimum t x)
  end.

Definition ceilZ (r : R) : Z := - Int_part (- r).

Definition truncZ (r : R) : Z :=
  if Rle_dec 0 r then Int_part r else ceilZ r.

Definition ceil (x : float R) : float R :=
  match x with
  | Fin r => Fin (IZR (ceilZ r))
  | other => other
  end.

(** [int(x)] of a float: truncation, and no integer for inf and nan. *)
Definition int (x : float R) : result Z :=
  match x with
  | Fin r => Ok (truncZ r)
  | PInf | NInf => Raise (OverflowError "cannot convert float infinity to integer")
  | NaN => Raise (ValueError "cannot convert float NaN to integer")
  end.

(** Product of two float64 values, finite times finite being exact. *)
Definition mul (a b : float Q) : float Q :=
  let sign_mul (neg_inf : bool) (q : Q) : float Q :=
    match (0 ?= q)%Q with
    | Lt => if neg_inf then NInf else PInf
    | Eq => NaN
    | Gt => if neg_inf then PInf else NInf
    end in
  match a, b with
  | NaN, _ | _, NaN => NaN
  | Fin x, Fin y => Fin (x * y)%Q
  | Fin x, PInf | PInf, Fin x => sign_mul false x
  | Fin x, NInf | NInf, Fin x => sign_mul true x
  | PInf, PInf | NInf, NInf => PInf
  | PInf, NInf | NInf, PInf => NInf
  end.

(** [x / y] on finite float64 operands. *)
Definition true_divide (x y : Q) : float Q :=
  if Qeq_bool y 0 then
    match (0 ?= x)%Q with
    | Lt => PInf
    | Eq => NaN
    | Gt => NInf
    end
  else Fin (x / y)%Q.

(** [np.diff]: [a[1:] - a[:-1]]. *)
Fixpoint diff (a : list Q) : list Q :=
  match a with
  | x :: ((y :: _) as t) => (y - x)%Q :: diff t
  | _ => []
  end.

(** [np.cumsum]. *)
Fixpoint cumsum_from (acc : Q) (a : list Q) : list Q :=
  match a with
  | [] => []
  | x :: t => (acc + x)%Q :: cumsum_from (acc + x)%Q t
  end.

Definition cumsum (a : list Q) : list Q :=
  match a with
  | [] => []
  | x :: t => x :: cumsum_from x t
  end.

(** [a[mask]] for a boolean mask of the array's length. *)
Fixpoint mask_select {A} (a : list A) (mask : list bool) : list A :=
  match a, mask with
  | x :: a', m :: mask' =>
      if m then x :: mask_select a' mask' else mask_select a' mask'
  | _, _ => []
  end.

(** Sorting, as [np.quantile] partitions its input. *)
Fixpoint insert_sorted (x : Q) (l : list Q) : list Q :=
  match l with
  | [] => [x]
  | y :: t => if Qle_bool x y then x :: l else y :: insert_sorted x t
  end.

Definition sort (l : list Q) : list Q := fold_right insert_sorted [] l.

(** [np.quantile(a, 0.5)], linear method: the virtual index [(n-1) * 0.5]
    lies between two neighbours of the sorted array, and the result is
    their linear interpolation; the empty array gives nan. *)
Definition quantile_half (a : list Q) : float Q :=
  match a with
  | [] => NaN
  | _ :: _ =>
      let s := sort a in
      let n := List.length a in
      let virtual_index := (Z.of_nat (n - 1) # 2)%Q in
      let previous := Qfloor virtual_index in
      let next := Z.min (previous + 1) (Z.of_nat (n - 1)) in
      let gamma := (virtual_index - inject_Z previous)%Q in
      let lo := nth (Z.to_nat previous) s 0%Q in
      let hi := nth (Z.to_nat next) s 0%Q in
      Fin (lo + (hi - lo) * gamma)%Q
  end.

End Np.

(** [np.multiply] on one-dimensional arrays, with numpy's broadcasting of a
    one-element operand. *)
Module Broadcast.

Fixpoint zip_mul (a b : list Q) : list Q :=
  match a, b with
  | x :: a', y :: b' => (x * y)%Q :: zip_mul a' b'
  | _, _ => []
  end.

Definition multiply (a b : list Q) : result (list Q) :=
  if Nat.eqb (List.length a) (List.length b) then Ok (zip_mul a b)
  else match a, b with
       | [x], _ => Ok (map (fun y => x * y)%Q b)
       | _, [y] => Ok (map (fun x => x * y)%Q a)
       | _, _ => Raise (ValueError "operands could not be broadcast together")
       end.

End Broadcast.

(** [np.interp(x, xp, fp)] on an increasing [xp]. *)
Module Interp.

(** The index numpy's search returns for a key inside the range of [arr]:
    one less than the first index [i >= 1] with [key < arr[i]]. *)
Fixpoint scan (key : Q) (tail : list Q) (i : nat) : nat :=
  match tail with
  | [] => i
  | y :: t => if Qle_bool y key then scan key t (S i) else i
  end.

Definition search (key : Q) (arr : list Q) : nat :=
  match arr with
  | [] => 0%nat
  | _ :: t => scan key t 0
  end.

Definition interp_one (xp fp : list Q) (x : Q) : Q :=
  let len := List.length xp in
  let first := nth 0 xp 0%Q in
  let last := nth (len - 1) xp 0%Q in
  if Qlt_le_dec last x then nth (len - 1) fp 0%Q          (* right of the points *)
  else if Qlt_le_dec x first then nth 0 fp 0%Q            (* left of the points *)
  else
    let j := search x xp in
    if Nat.eqb j (len - 1) then nth j fp 0%Q
    else if Qeq_bool (nth j xp 0%Q) x then nth j fp 0%Q
    else
      let slope := ((nth (S j) fp 0 - nth j fp 0) / (nth (S j) xp 0 - nth j xp 0))%Q in
      (slope * (x - nth j xp 0) + nth j fp 0)%Q.

Definition interp (x xp fp : list Q) : result (list Q) :=
  match xp with
  | [] => Raise (ValueError "array of sample points is empty")
  | _ :: _ =>
      if Nat.eqb (List.length fp) (List.length xp)
      then Ok (map (interp_one xp fp) x)
      else Raise (ValueError "fp and xp are not of the same length.")
  end.

End Interp.

(** ** Strings of the script *)

Module Str.

Definition endswith (s suffix : string) : bool :=
  let n := String.length s in
  let k := String.length suffix in
  (k <=? n)%nat && String.eqb (substring (n - k) k s) suffix.

(** [s[0:-k]] for a positive [k]. *)
Definition drop_last (k : nat) (s : string) : string :=
  substring 0 (String.length s - k) s.

(** [str(i)] of an int. *)
Definition of_int (i : Z) : string := NilZero.string_of_int (Z.to_int i).

(** [\d] on a file name of ASCII characters. *)
Definition is_digit (c : ascii) : bool :=
  let n := nat_of_ascii c in (48 <=? n)%nat && (n <=? 57)%nat.

Fixpoint take_digits (s : string) : string :=
  match s with
  | String c t => if is_digit c then String c (take_digits t) else EmptyString
  | EmptyString => EmptyString
  end.

Fixpoint drop (k : nat) (s : string) : string :=
  match k, s with
  | S k', String _ t => drop k' t
  | _, _ => s
  end.

(** [re.search(r'(chr\d+)', s)]: the leftmost ["chr"] followed by a digit,
    with all the digits that follow; [None] when there is no match. *)
Fixpoint search_chr (s : string) : option string :=
  match s with
  | EmptyString => None
  | String _ t =>
      match (if prefix "chr" s then take_digits (drop 3 s) else EmptyString) with
      | EmptyString => search_chr t
      | digits => Some ("chr" ++ digits)%string
      end
  end.

End Str.

(** ** Data of the script *)

(** What the script reads of a tsinfer sample-data file. *)
Record SampleData : Type := {
  path : option string;
  sites_position : list Q;
  sites_inference : list bool;
  sequence_length : Q;
  genotypes : list (list Z)
}.

(** An msprime recombination map. *)
Record RecombinationMap : Type := {
  get_positions : list Q;
  get_rates : list Q
}.

(** One tree of a tree sequence, through the methods the script calls. *)
Record Tree : Type := {
  span : Q;
  nodes : list nat;
  num_children : nat -> nat
}.

Record Params : Type := {
  sample_data : SampleData;
  rec_rate : list Q;
  ma_mut_rate : Q;
  ms_mut_rate : Q;
  precision : option Z;
  num_threads : Z
}.

Record Results : Type := {
  ma_mut : Q;
  ms_mut : Q;
  res_precision : Z;
  edges : Z;
  muts : Z;
  num_trees : Z;
  kc : option Q;
  mean_node_children : Q;
  var_node_children : Q;
  process_time : Q;
  ts_size : Z;
  ts_path : string
}.

(** ** Precision selection (lines 25-35 of [run]) *)

Definition select_precision (rho : list Q) (base_rec_prob : Np.float Q)
    (params : Params) : result Z :=
  match precision params with
  | None =>
      (* Smallest recombination rate *)
      m <- Np.min Np.minimum (map (fun r => Np.log10 (Np.Fin r)) rho) ;;
      min_rho <- Np.int (Np.ceil (Np.neg m)) ;;
      (* Smallest mean *)
      av_min <- Np.int (Np.ceil (Np.neg (Np.log10
                  (Np.mul (Np.Fin (Py.min3 1 (ma_mut_rate params) (ms_mut_rate params)))
                          base_rec_prob)))) ;;
      Ok (Z.max min_rho av_min + 3)
  | Some p => Ok p
  end.

(** The banner printed next evaluates [np.min(rho)], which has no value on
    an empty array; the other statistics it shows are nan there. *)
Definition banner (rho : list Q) : result unit :=
  _ <- Np.min Qmin rho ;; Ok tt.

(** ** Topology statistics (lines 86-98 of [run]) *)

Definition count_node (t : Tree) (acc : Q * Q * Q) (n : nat) : Q * Q * Q :=
  let '(nc_sum, nc_sum_sq, nc_tot) := acc in
  let n_children := num_children t n in
  if (0 <? n_children)%nat then      (* exclude leaves/samples *)
    (nc_sum + inject_Z (Z.of_nat n_children) * span t,
     nc_sum_sq + inject_Z (Z.of_nat (n_children ^ 2)) * span t,
     nc_tot + span t)%Q
  else acc.

Definition count_tree (acc : Q * Q * Q) (t : Tree) : Q * Q * Q :=
  fold_left (count_node t) (nodes t) acc.

Definition children_stats (trees : list Tree) : result (Q * Q) :=
  let '(nc_sum, nc_sum_sq, nc_tot) := fold_left count_tree trees (0, 0, 0)%Q in
  nc_mean <- Py.div nc_sum nc_tot ;;
  second_moment <- Py.div nc_sum_sq nc_tot ;;
  Ok (nc_mean, second_moment - nc_mean ^ 2)%Q.

(** ** Coordinate conversion *)

Definition physical_to_genetic (recombination_map : RecombinationMap)
    (input_physical_positions : list Q) : result (list Q) :=
  let map_pos := get_positions recombination_map in
  let map_rates := get_rates recombination_map in
  steps <- Broadcast.multiply (Np.diff map_pos) (removelast map_rates) ;;
  let map_genetic_positions := 0%Q :: Np.cumsum steps in
  Interp.interp input_physical_positions map_pos map_genetic_positions.

(** ** The external collaborators and the pipeline *)

(** What a call into tsinfer, tskit, stdpopsim or the file system gives
    back: a value, or an exception of the library's own. *)
Inductive outcome (A : Type) : Type :=
| Done (a : A)
| Fails (msg : string).

Arguments Done {A} a.
Arguments Fails {A} msg.

Section Pipeline.

Variables AncestorData TreeSequence : Type.

Inductive call : Type :=
| GenerateAncestors (sd : SampleData) (threads : Z) (file : option string)
| MatchAncestors (sd : SampleData) (anc : AncestorData) (threads prec : Z)
    (recombination_rate : list Q) (mutation_rate : Np.float Q)
| MatchSamples (sd : SampleData) (anc_ts : TreeSequence) (threads prec : Z)
    (recombination_rate : list Q) (mutation_rate : Np.float Q)
| Dump (ts : TreeSequence) (file : string)
| Simplify (ts : TreeSequence)
| Load (file : string)
| KcDistance (ts other : TreeSequence)
| GetSize (file : string).

(** The log a recording engine keeps. *)
Inductive event : Type :=
| Invoked (c : call)
| Returned (c : call)
| Failed (c : call) (e : exn).

Record Engine : Type := {
  generate_ancestors : SampleData -> Z -> option string -> outcome AncestorData;
  match_ancestors :
    SampleData -> AncestorData -> Z -> Z -> list Q -> Np.float Q -> outcome TreeSequence;
  match_samples :
    SampleData -> TreeSequence -> Z -> Z -> list Q -> Np.float Q -> outcome TreeSequence;
  dump : TreeSequence -> string -> outcome unit;
  simplify : TreeSequence -> outcome TreeSequence;
  trees : TreeSequence -> list Tree;
  kc_distance : TreeSequence -> TreeSequence -> outcome Q;
  load : string -> outcome TreeSequence;      (* [tskit.load] of a file that exists *)
  ts_num_edges : TreeSequence -> Z;
  ts_num_mutations : TreeSequence -> Z;
  ts_num_trees : TreeSequence -> Z;
  on_disk : string -> bool;                   (* the files there when the run starts *)
  file_size : string -> Z;
  cpu_time : list event -> Q;                 (* [time.process_time()] after these events *)
  str_float : Q -> string;                    (* [str(x)] of a float *)
  tsinfer_load : string -> outcome SampleData;
  get_chromosome_map : string -> outcome RecombinationMap
}.

Variable E : Engine.

Record state : Type := {
  trace : list event;
  created : list string      (* the files written since the run started *)
}.

Definition M (A : Type) : Type := state -> result A * state.

Definition ret {A} (a : A) : M A := fun st => (Ok a, st).

Definition bindM {A B} (m : M A) (k : A -> M B) : M B :=
  fun st =>
    match m st with
    | (Ok a, st') => k a st'
    | (Raise e, st') => (Raise e, st')
    end.

Definition lift {A} (r : result A) : M A := fun st => (r, st).

Notation "x <-- m ;; k" := (bindM m (fun x => k))
  (at level 61, m at next level, right associativity).

Definition log (st : state) (evs : list event) (files : list string) : state :=
  {| trace := trace st ++ evs; created := files ++ created st |}.

(** A call into a library: logged when it starts and when it ends. *)
Definition external {A} (c : call) (o : outcome A) (writes : list string) : M A :=
  fun st =>
    match o with
    | Done a => (Ok a, log st [Invoked c; Returned c] writes)
    | Fails msg =>
        (Raise (ExternalError msg), log st [Invoked c; Failed c (ExternalError msg)] [])
    end.

Definition file_exists (st : state) (file : string) : bool :=
  on_disk E file || existsb (String.eqb file) (created st).

(** A call that opens a file. *)
Definition opening {A} (c : call) (file : string) (o : outcome A) : M A :=
  fun st =>
    if file_exists st file then external c o [] st
    else (Raise (FileNotFoundError file),
          log st [Invoked c; Failed c (FileNotFoundError file)] []).

Definition try_except_FileNotFoundError {A} (body handler : M A) : M A :=
  fun st =>
    match body st with
    | (Raise (FileNotFoundError _), st') => handler st'
    | other => other
    end.

Definition time_process_time : M Q := fun st => (Ok (cpu_time E (trace st)), st).

(** Reading a local variable of [run] that an earlier branch may have left
    unbound. *)
Definition local (name : string) (binding : option string) : result string :=
  match binding with
  | Some v => Ok v
  | None => Raise (UnboundLocalError name)
  end.

(** Lines 43-51: the value of [prefix] (Python's [None] or a string) and the
    binding of [inf_prefix], which only the [if] body assigns. *)
Definition prefixes (params : Params) (precision : Z)
  : result (option string * option string) :=
  match path (sample_data params) with
  | Some p =>
      if Str.endswith p ".samples" then
        let prefix := Str.drop_last (String.length ".samples") p in
        let inf_prefix :=
          (prefix ++ "_ma" ++ str_float E (ma_mut_rate params)
                  ++ "_ms" ++ str_float E (ms_mut_rate params)
                  ++ "_p" ++ Str.of_int precision)%string in
        Ok (Some prefix, Some inf_prefix)
      else Raise AssertionError
  | None => Ok (None, None)
  end.

Definition run (params : Params) : M Results :=
  let sd := sample_data params in
  let rho := tl (rec_rate params) in
  let base_rec_prob := Np.quantile_half rho in
  precision <-- lift (select_precision rho base_rec_prob params) ;;
  _ <-- lift (banner rho) ;;
  bound <-- lift (prefixes params precision) ;;
  let '(prefix, inf_prefix) := bound in
  start_time <-- time_process_time ;;
  (* the arguments of generate_ancestors read inf_prefix, a string when bound *)
  anc_file <-- lift (local "inf_prefix" inf_prefix) ;;
  anc <-- external
            (GenerateAncestors sd (num_threads params) (Some (anc_file ++ ".ancestors")%string))
            (generate_ancestors E sd (num_threads params)
               (Some (anc_file ++ ".ancestors")%string))
            [(anc_file ++ ".ancestors")%string] ;;
  let ma_rate := Np.mul base_rec_prob (Np.Fin (ma_mut_rate params)) in
  inferred_anc_ts <-- external
            (MatchAncestors sd anc (num_threads params) precision (rec_rate params) ma_rate)
            (match_ancestors E sd anc (num_threads params) precision (rec_rate params) ma_rate)
            [] ;;
  atrees <-- lift (local "inf_prefix" inf_prefix) ;;
  _ <-- external (Dump inferred_anc_ts (atrees ++ ".atrees")%string)
            (dump E inferred_anc_ts (atrees ++ ".atrees")%string)
            [(atrees ++ ".atrees")%string] ;;
  let ms_rate := Np.mul base_rec_prob (Np.Fin (ms_mut_rate params)) in
  inferred_ts <-- external
            (MatchSamples sd inferred_anc_ts (num_threads params) precision
               (rec_rate params) ms_rate)
            (match_samples E sd inferred_anc_ts (num_threads params) precision
               (rec_rate params) ms_rate)
            [] ;;
  end_time <-- time_process_time ;;
  let process_time := (end_time - start_time)%Q in
  trees_prefix <-- lift (local "inf_prefix" inf_prefix) ;;
  let ts_path := (trees_prefix ++ ".trees")%string in
  _ <-- external (Dump inferred_ts ts_path) (dump E inferred_ts ts_path) [ts_path] ;;
  simplified_inferred_ts <-- external (Simplify inferred_ts) (simplify E inferred_ts) [] ;;
  stats <-- lift (children_stats (trees E simplified_inferred_ts)) ;;
  let '(nc_mean, nc_var) := stats in
  kc <-- try_except_FileNotFoundError
           (truth_file <-- lift match prefix with
                                | Some p => Ok (p ++ ".trees")%string
                                | None => Raise (TypeError
                                    "unsupported operand type(s) for +: 'NoneType' and 'str'")
                                end ;;
            truth <-- opening (Load truth_file) truth_file (load E truth_file) ;;
            d <-- external (KcDistance simplified_inferred_ts truth)
                    (kc_distance E simplified_inferred_ts truth) [] ;;
            ret (Some d))
           (ret None) ;;
  size <-- opening (GetSize ts_path) ts_path (Done (file_size E ts_path)) ;;
  ret {| ma_mut := ma_mut_rate params;
         ms_mut := ms_mut_rate params;
         res_precision := precision;
         edges := ts_num_edges E inferred_ts;
         muts := ts_num_mutations E inferred_ts;
         num_trees := ts_num_trees E inferred_ts;
         kc := kc;
         mean_node_children := nc_mean;
         var_node_children := nc_var;
         process_time := process_time;
         ts_size := size;
         ts_path := ts_path |}.

(** ** [setup_sample_file] *)

Definition of_outcome {A} (o : outcome A) : result A :=
  match o with
  | Done a => Ok a
  | Fails msg => Raise (ExternalError msg)
  end.

Definition setup_sample_file (filename : string)
  : result (SampleData * list (Np.float Q) * string * option TreeSequence) :=
  if negb (Str.endswith filename ".samples") then
    Raise (ValueError "Sample data file must end with '.samples'")
  else
    sd <- of_outcome (tsinfer_load E filename) ;;
    rho <- match Str.search_chr filename with
           | Some chr =>
               chr_map <- of_outcome (get_chromosome_map E chr) ;;
               inference_distances <-
                 physical_to_genetic chr_map
                   (Np.mask_select (sites_position sd) (sites_inference sd)) ;;
               Ok (Np.Fin 0%Q :: map Np.Fin (Np.diff inference_distances))
           | None =>
               let inference_distances :=
                 Np.mask_select (sites_position sd) (sites_inference sd) in
               Ok (Np.Fin 0%Q ::
                   map (fun d => Np.true_divide d (sequence_length sd))
                       (Np.diff inference_distances))
           end ;;
    Ok (sd, rho, Str.drop_last (String.length ".samples") filename, None).

End Pipeline.

Arguments GenerateAncestors {AncestorData TreeSequence} sd threads file.
Arguments MatchAncestors {AncestorData TreeSequence} sd anc threads prec
  recombination_rate mutation_rate.
Arguments MatchSamples {AncestorData TreeSequence} sd anc_ts threads prec
  recombination_rate mutation_rate.
Arguments Dump {AncestorData TreeSequence} ts file.
Arguments Simplify {AncestorData TreeSequence} ts.
Arguments Load {AncestorData TreeSequence} file.
Arguments KcDistance {AncestorData TreeSequence} ts other.
Arguments GetSize {AncestorData TreeSequence} file.
Arguments Invoked {AncestorData TreeSequence} c.
Arguments Returned {AncestorData TreeSequence} c.
Arguments Failed {AncestorData TreeSequence} c e.
Arguments generate_ancestors {AncestorData TreeSequence} _.
Arguments match_ancestors {AncestorData TreeSequence} _.
Arguments match_samples {AncestorData TreeSequence} _.
Arguments dump {AncestorData TreeSequence} _.
Arguments simplify {AncestorData TreeSequence} _.
Arguments trees {AncestorData TreeSequence} _.
Arguments kc_distance {AncestorData TreeSequence} _.
Arguments load {AncestorData TreeSequence} _.
Arguments ts_num_edges {AncestorData TreeSequence} _.
Arguments ts_num_mutations {AncestorData TreeSequence} _.
Arguments ts_num_trees {AncestorData TreeSequence} _.
Arguments on_disk {AncestorData TreeSequence} _.
Arguments file_size {AncestorData TreeSequence} _.
Arguments cpu_time {AncestorData TreeSequence} _.
Arguments str_float {AncestorData TreeSequence} _.
Arguments tsinfer_load {AncestorData TreeSequence} _.
Arguments get_chromosome_map {AncestorData TreeSequence} _.
Arguments trace {AncestorData TreeSequence} _.
Arguments created {AncestorData TreeSequence} _.
Arguments ret {AncestorData TreeSequence A} a.
Arguments bindM {AncestorData TreeSequence A B} m k.
Arguments lift {AncestorData TreeSequence A} r.
Arguments log {AncestorData TreeSequence} st evs files.
Arguments external {AncestorData TreeSequence A} c o writes.
Arguments file_exists {AncestorData TreeSequence} E st file.
Arguments opening {AncestorData TreeSequence} E {A} c file o.
Arguments try_except_FileNotFoundError {AncestorData TreeSequence A} body handler.
Arguments time_process_time {AncestorData TreeSequence} E.
Arguments prefixes {AncestorData TreeSequence} E params precision.
Arguments run {AncestorData TreeSequence} E params.
Arguments of_outcome {A} o.
Arguments setup_sample_file {AncestorData TreeSequence} E filename.

(** ** Notions used in the statements *)

Section Notions.
Local Open Scope Q_scope.

(** The number of entries of [l] that are at most [v]. *)
Definition count_le (v : Q) (l : list Q) : nat :=
  List.length (filter (fun x => Qle_bool x v) l).

Inductive sorted : list Q -> Prop :=
| sorted_nil : sorted []
| sorted_cons x l : Forall (fun y => x <= y) l -> sorted l -> sorted (x :: l).


Definition lerp (lo hi g : Q) : Q := lo + (hi - lo) * g.

(** The two ranks and the weight [np.quantile(., 0.5)] uses depend on the
    length alone. *)
Definition half_rank (n : nat) : nat := Z.to_nat (Qfloor (Z.of_nat (n - 1) # 2)).
Definition half_next (n : nat) : nat :=
  Z.to_nat (Z.min (Qfloor (Z.of_nat (n - 1) # 2) + 1) (Z.of_nat (n - 1))).
Definition half_gamma (n : nat) : Q :=
  (Z.of_nat (n - 1) # 2) - inject_Z (Qfloor (Z.of_nat (n - 1) # 2)).

(** Every node that has children has exactly two. *)
Definition binary (t : Tree) : Prop :=
  Forall (fun n => num_children t n = 0%nat \/ num_children t n = 2%nat) (nodes t).

Definition has_internal_node (t : Tree) : Prop :=
  Exists (fun n => (0 < num_children t n)%nat) (nodes t).

(** The sums over binary nodes: twice and four times the total span. *)
Definition balanced (acc : Q * Q * Q) : Prop :=
  let '(nc_sum, nc_sum_sq, nc_tot) := acc in
  nc_sum == 2 * nc_tot /\ nc_sum_sq == 4 * nc_tot /\ 0 <= nc_tot.

Definition total (acc : Q * Q * Q) : Q := snd acc.

(** The genetic position of [x] in the spec's words: every map interval
    [[p0, p1]] with rate [r0] contributes [r0] times the length of its part
    at or before [x]: all of it when the interval precedes [x], the part
    up to [x] (the linear interpolation) when [x] lies inside, nothing
    when it lies after [x]. *)
Fixpoint genetic_position (pos rates : list Q) (x : Q) : Q :=
  match pos, rates with
  | p0 :: ((p1 :: _) as pos'), r0 :: rates' =>
      (Qmin (Qmax x p0) p1 - p0) * r0 + genetic_position pos' rates' x
  | _, _ => 0
  end.

Inductive increasing : list Q -> Prop :=
| increasing_nil : increasing []
| increasing_cons x l : Forall (fun y => x < y) l -> increasing l -> increasing (x :: l).

(** What msprime demands of a recombination map. *)
Definition well_formed (m : RecombinationMap) : Prop :=
  get_positions m <> [] /\
  List.length (get_rates m) = List.length (get_positions m) /\
  increasing (get_positions m).

(** The array [map_genetic_positions] of [physical_to_genetic]. *)
Definition map_genetic_positions (pos rates : list Q) : list Q :=
  0 :: Np.cumsum (Broadcast.zip_mul (Np.diff pos) (removelast rates)).

End Notions.

(** The identifier contains ["chr"] followed by a digit. *)
Definition has_chromosome_token (s : string) : Prop :=
  exists pre digit post,
    s = (pre ++ "chr" ++ String digit post)%string /\ Str.is_digit digit = true.

Inductive stage : Type := AncestorsGenerated | AncestorsMatched | SamplesMatched.

Definition stage_of {AncestorData TreeSequence : Type}
    (c : call AncestorData TreeSequence) : option stage :=
  match c with
  | GenerateAncestors _ _ _ => Some AncestorsGenerated
  | MatchAncestors _ _ _ _ _ _ => Some AncestorsMatched
  | MatchSamples _ _ _ _ _ _ => Some SamplesMatched
  | _ => None
  end.

Definition is_load {AncestorData TreeSequence : Type}
    (c : call AncestorData TreeSequence) : bool :=
  match c with
  | Load _ => true
  | _ => false
  end.

(** [ts] is what the three stages infer for [params] at precision [prec],
    the ancestors being stored under [inf_prefix]. *)
Definition inferred_by {AncestorData TreeSequence : Type}
    (E : Engine AncestorData TreeSequence) (params : Params) (prec : Z)
    (inf_prefix : string) (ts : TreeSequence) : Prop :=
  let sd := sample_data params in
  let base_rec_prob := Np.quantile_half (tl (rec_rate params)) in
  exists anc anc_ts,
    generate_ancestors E sd (num_threads params) (Some (inf_prefix ++ ".ancestors")%string)
      = Done anc /\
    match_ancestors E sd anc (num_threads params) prec (rec_rate params)
      (Np.mul base_rec_prob (Np.Fin (ma_mut_rate params))) = Done anc_ts /\
    match_samples E sd anc_ts (num_threads params) prec (rec_rate params)
      (Np.mul base_rec_prob (Np.Fin (ms_mut_rate params))) = Done ts.

(** The parameters [p] on a dataset that was never stored. *)
Definition pathless (p : Params) : Params :=
  {| sample_data :=
       {| path := None;
          sites_position := sites_position (sample_data p);
          sites_inference := sites_inference (sample_data p);
          sequence_length := sequence_length (sample_data p);
          genotypes := genotypes (sample_data p) |};
     rec_rate := rec_rate p;
     ma_mut_rate := ma_mut_rate p;
     ms_mut_rate := ms_mut_rate p;
     precision := precision p;
     num_threads := num_threads p |}.

(** ** Notions of the further properties *)

(** Two stages are the same one. *)
Definition same_stage (a b : stage) : bool :=
  match a, b with
  | AncestorsGenerated, AncestorsGenerated
  | AncestorsMatched, AncestorsMatched
  | SamplesMatched, SamplesMatched => true
  | _, _ => false
  end.

(** How often the log shows stage [s] invoked. *)
Definition invocations {AncestorData TreeSequence : Type} (s : stage)
    (evs : list (event AncestorData TreeSequence)) : nat :=
  List.length
    (filter (fun ev => match ev with
                       | Invoked c =>
                           match stage_of c with
                           | Some s' => same_stage s s'
                           | None => false
                           end
                       | _ => false
                       end) evs).




(** Every character of [s] is a digit. *)
Fixpoint digits_only (s : string) : bool :=
  match s with
  | EmptyString => true
  | String c t => Str.is_digit c && digits_only t
  end.

Definition starts_with_digit (s : string) : bool :=
  match s with
  | String c _ => Str.is_digit c
  | EmptyString => false
  end.

(** ** Fixtures: a small dataset and a recording engine that always succeeds *)

Module Fixture.

Definition sd : SampleData :=
  {| path := Some "sim.samples"%string;
     sites_position := [0; 100; 500; 2000; 9999]%Q;
     sites_inference := [true; true; true; true; true];
     sequence_length := 10000%Q;
     genotypes := [] |}.

Definition params (rates : list Q) (ma ms : Q) (p : option Z) : Params :=
  {| sample_data := sd; rec_rate := rates; ma_mut_rate := ma; ms_mut_rate := ms;
     precision := p; num_threads := 0 |}.

Definition hapmap : RecombinationMap :=
  {| get_positions := [0; 1000; 5000; 10000]%Q;
     get_rates := [1 # 1000; 2 # 1000; 1 # 2000; 0]%Q |}.

(** A balanced binary tree over four samples: nodes 4 and 5 join the
    samples pairwise and node 6 is the root. *)
Definition binary_tree : Tree :=
  {| span := 10000%Q;
     nodes := [6; 4; 0; 1; 5; 2; 3]%nat;
     num_children := fun n => if (4 <=? n)%nat then 2%nat else 0%nat |}.

(** The same sites, none of them marked for inference. *)
Definition sd_no_inference : SampleData :=
  {| path := Some "sim.samples"%string;
     sites_position := [0; 100; 500; 2000; 9999]%Q;
     sites_inference := [false; false; false; false; false];
     sequence_length := 10000%Q;
     genotypes := [] |}.

(** A tree sequence is the list of its trees; every call succeeds; the
    clock ticks once per logged event. *)
Definition engine (disk : string -> bool) (data : SampleData)
  : Engine unit (list Tree) :=
  {| generate_ancestors := fun _ _ _ => Done tt;
     match_ancestors := fun _ _ _ _ _ _ => Done [binary_tree];
     match_samples := fun _ ts _ _ _ _ => Done ts;
     dump := fun _ _ => Done tt;
     simplify := fun ts => Done ts;
     trees := fun ts => ts;
     kc_distance := fun _ _ => Done 0%Q;
     load := fun _ => Done [binary_tree];
     ts_num_edges := fun _ => 6;
     ts_num_mutations := fun _ => 5;
     ts_num_trees := fun ts => Z.of_nat (List.length ts);
     on_disk := disk;
     file_size := fun _ => 4096;
     cpu_time := fun events => inject_Z (Z.of_nat (List.length events));
     str_float := fun q => if Qeq_bool q (1 # 10) then "0.1"%string else "0.01"%string;
     tsinfer_load := fun file =>
       Done {| path := Some file;
               sites_position := sites_position data;
               sites_inference := sites_inference data;
               sequence_length := sequence_length data;
               genotypes := genotypes data |};
     get_chromosome_map := fun _ => Done hapmap |}.

Definition start : state unit (list Tree) := {| trace := []; created := [] |}.

End Fixture.


(** * Proofs *)

Section RealLemmas.
Local Open Scope R_scope.

Lemma ceilZ_bounds (r : R) : IZR (Np.ceilZ r) - 1 < r <= IZR (Np.ceilZ r).
Proof.
  unfold Np.ceilZ. rewrite opp_IZR.
  destruct (base_Int_part (- r)) as [H1 H2]. lra.
Qed.

Lemma ceilZ_spec (r : R) (k : Z) : IZR k - 1 < r <= IZR k -> Np.ceilZ r = k.
Proof.
  intros [H1 H2]. unfold Np.ceilZ.
  assert (Hk : (- k)%Z = Int_part (- r)).
  { apply Int_part_spec. rewrite opp_IZR. lra. }
  lia.
Qed.

Lemma ceilZ_le_iff (r : R) (k : Z) : (Np.ceilZ r <= k)%Z <-> r <= IZR k.
Proof.
  destruct (ceilZ_bounds r) as [H1 H2]. split; intro H.
  - apply IZR_le in H. lra.
  - apply Z.lt_succ_r. apply lt_IZR. rewrite succ_IZR. lra.
Qed.

Lemma ceilZ_mono (r s : R) : r <= s -> (Np.ceilZ r <= Np.ceilZ s)%Z.
Proof.
  intro H. apply ceilZ_le_iff. destruct (ceilZ_bounds s). lra.
Qed.

Lemma ceilZ_IZR (k : Z) : Np.ceilZ (IZR k) = k.
Proof. apply ceilZ_spec. lra. Qed.

Lemma truncZ_IZR (k : Z) : Np.truncZ (IZR k) = k.
Proof.
  unfold Np.truncZ. destruct (Rle_dec 0 (IZR k)).
  - symmetry. apply Int_part_spec. lra.
  - apply ceilZ_IZR.
Qed.

Lemma int_ceil_fin (r : R) : Np.int (Np.ceil (Np.Fin r)) = Ok (Np.ceilZ r).
Proof. simpl. now rewrite truncZ_IZR. Qed.

Lemma ln10_pos : 0 < ln 10.
Proof. rewrite <- ln_1. apply ln_increasing; lra. Qed.

Lemma log10R_le (x y : R) : 0 < x -> x <= y -> Np.log10R x <= Np.log10R y.
Proof.
  intros Hx Hxy. unfold Np.log10R.
  apply Rmult_le_compat_r.
  - left. apply Rinv_0_lt_compat, ln10_pos.
  - destruct Hxy as [Hlt | ->]; [left; now apply ln_increasing | right; reflexivity].
Qed.

Lemma log10R_10 : Np.log10R 10 = 1.
Proof. unfold Np.log10R. field. pose proof ln10_pos. lra. Qed.

Lemma log10R_1 : Np.log10R 1 = 0.
Proof. unfold Np.log10R. rewrite ln_1. field. pose proof ln10_pos. lra. Qed.

End RealLemmas.

(** ** Sorting and order statistics *)

Section OrderStatistics.
Local Open Scope Q_scope.

Lemma insert_sorted_length x l :
  List.length (Np.insert_sorted x l) = S (List.length l).
Proof.
  induction l as [| y t IH]; simpl; [reflexivity |].
  destruct (Qle_bool x y); simpl; [reflexivity | now rewrite IH].
Qed.

Lemma sort_length l : List.length (Np.sort l) = List.length l.
Proof.
  induction l as [| x t IH]; simpl; [reflexivity |].
  now rewrite insert_sorted_length, IH.
Qed.

Lemma insert_sorted_Forall (P : Q -> Prop) x l :
  P x -> Forall P l -> Forall P (Np.insert_sorted x l).
Proof.
  intros Hx Hl. induction Hl as [| y t Hy Ht IH]; simpl.
  - now constructor.
  - destruct (Qle_bool x y); repeat constructor; assumption.
Qed.

Lemma sort_Forall (P : Q -> Prop) l : Forall P l -> Forall P (Np.sort l).
Proof.
  induction 1 as [| x t Hx Ht IH]; simpl; [constructor |].
  now apply insert_sorted_Forall.
Qed.

Lemma insert_sorted_sorted x l : sorted l -> sorted (Np.insert_sorted x l).
Proof.
  induction 1 as [| y t Hy Ht IH]; simpl.
  - repeat constructor.
  - destruct (Qle_bool x y) eqn:Hxy.
    + apply Qle_bool_iff in Hxy. constructor; [| now constructor].
      constructor; [assumption |].
      eapply Forall_impl; [| exact Hy]. intros z Hz. simpl in Hz.
      now apply Qle_trans with y.
    + constructor; [| assumption].
      apply insert_sorted_Forall; [| assumption].
      apply Qlt_le_weak, Qnot_le_lt. intro H. apply Qle_bool_iff in H. congruence.
Qed.

Lemma sort_sorted l : sorted (Np.sort l).
Proof.
  induction l; simpl; [constructor | now apply insert_sorted_sorted].
Qed.

Lemma count_le_insert v x l :
  count_le v (Np.insert_sorted x l) = count_le v (x :: l).
Proof.
  unfold count_le. induction l as [| y t IH]; simpl; [reflexivity |].
  destruct (Qle_bool x y); simpl; [reflexivity |].
  destruct (Qle_bool y v) eqn:Hy, (Qle_bool x v) eqn:Hx;
    simpl in IH; rewrite Hx in IH; simpl in *; lia.
Qed.

Lemma count_le_sort v l : count_le v (Np.sort l) = count_le v l.
Proof.
  induction l as [| x t IH]; simpl; [reflexivity |].
  rewrite count_le_insert. unfold count_le in *. simpl.
  destruct (Qle_bool x v); simpl; now rewrite IH.
Qed.

Lemma count_le_above v l : Forall (fun y => v < y) l -> count_le v l = 0%nat.
Proof.
  unfold count_le. induction 1 as [| y t Hy Ht IH]; simpl; [reflexivity |].
  destruct (Qle_bool y v) eqn:H; [| assumption].
  apply Qle_bool_iff in H. exfalso. now apply (Qlt_not_le v y).
Qed.

(** In a sorted list the [k]-th element is at most [v] exactly when more
    than [k] elements are. *)
Lemma sorted_nth_le v l : sorted l ->
  forall k, (k < List.length l)%nat ->
  (nth k l 0 <= v <-> (k < count_le v l)%nat).
Proof.
  induction 1 as [| x t Hx Ht IH]; intros k Hk; simpl in Hk; [lia |].
  unfold count_le in *. simpl filter.
  destruct k as [| k]; simpl nth.
  - destruct (Qle_bool x v) eqn:Hxv; simpl.
    + apply Qle_bool_iff in Hxv. split; [lia | auto].
    + assert (Hlt : v < x).
      { apply Qnot_le_lt. intro H. apply Qle_bool_iff in H. congruence. }
      assert (H0 : count_le v t = 0%nat).
      { apply count_le_above. eapply Forall_impl; [| exact Hx].
        intros z Hz. simpl in Hz. now apply Qlt_le_trans with x. }
      unfold count_le in H0. rewrite H0. split; [| lia].
      intro H. exfalso. now apply (Qlt_not_le v x).
  - assert (Hk' : (k < List.length t)%nat) by lia.
    specialize (IH k Hk').
    assert (Hin : x <= nth k t 0).
    { rewrite Forall_forall in Hx. apply Hx. now apply nth_In. }
    destruct (Qle_bool x v) eqn:Hxv; simpl.
    + rewrite IH. lia.
    + assert (Hlt : v < x).
      { apply Qnot_le_lt. intro H. apply Qle_bool_iff in H. congruence. }
      split.
      * intro H. exfalso. apply (Qlt_not_le v x Hlt). now apply Qle_trans with (nth k t 0).
      * intro H. apply IH. lia.
Qed.

Lemma count_le_pointwise v l' l :
  Forall2 Qle l' l -> (count_le v l <= count_le v l')%nat.
Proof.
  unfold count_le. induction 1 as [| x' x t' t Hx Ht IH]; simpl; [lia |].
  destruct (Qle_bool x v) eqn:Hxv.
  - assert (H' : Qle_bool x' v = true).
    { apply Qle_bool_iff. apply Qle_bool_iff in Hxv. now apply Qle_trans with x. }
    rewrite H'. simpl. lia.
  - destruct (Qle_bool x' v); simpl; lia.
Qed.

(** Order statistics are monotone: shrinking entries shrinks every rank. *)
Lemma sort_nth_mono l' l k :
  Forall2 Qle l' l -> (k < List.length l)%nat ->
  nth k (Np.sort l') 0 <= nth k (Np.sort l) 0.
Proof.
  intros H Hk.
  assert (Hlen : List.length l' = List.length l) by (eapply Forall2_length; eauto).
  apply (sorted_nth_le (nth k (Np.sort l) 0) (Np.sort l') (sort_sorted l')).
  - rewrite sort_length. lia.
  - rewrite count_le_sort.
    eapply Nat.lt_le_trans; [| apply count_le_pointwise; exact H].
    rewrite <- (count_le_sort _ l).
    apply (sorted_nth_le _ (Np.sort l) (sort_sorted l)).
    + rewrite sort_length. lia.
    + apply Qle_refl.
Qed.

Lemma sort_nth_Forall (P : Q -> Prop) l k :
  Forall P l -> (k < List.length l)%nat -> P (nth k (Np.sort l) 0).
Proof.
  intros H Hk. pose proof (sort_Forall P l H) as Hs.
  rewrite Forall_forall in Hs. apply Hs, nth_In. now rewrite sort_length.
Qed.

End OrderStatistics.

(** ** The median *)

Section Median.
Local Open Scope Q_scope.

Lemma quantile_half_eq l : l <> [] ->
  Np.quantile_half l =
  Np.Fin (lerp (nth (half_rank (List.length l)) (Np.sort l) 0)
               (nth (half_next (List.length l)) (Np.sort l) 0)
               (half_gamma (List.length l))).
Proof. destruct l; [congruence | reflexivity]. Qed.

Lemma Qfloor_half (k : nat) : Qfloor (Z.of_nat k # 2) = (Z.of_nat k / 2)%Z.
Proof. reflexivity. Qed.

Lemma half_div_range (k : nat) : (0 <= Z.of_nat k / 2 <= Z.of_nat k)%Z.
Proof.
  split; [apply Z.div_pos; lia | apply Z.div_le_upper_bound; lia].
Qed.

Lemma half_rank_lt n : (0 < n)%nat -> (half_rank n < n)%nat.
Proof.
  intro H. unfold half_rank. rewrite Qfloor_half.
  pose proof (half_div_range (n - 1)). lia.
Qed.

Lemma half_next_lt n : (0 < n)%nat -> (half_next n < n)%nat.
Proof.
  intro H. unfold half_next. rewrite Qfloor_half.
  pose proof (half_div_range (n - 1)). lia.
Qed.

Lemma half_gamma_range n : 0 <= half_gamma n /\ half_gamma n <= 1.
Proof.
  unfold half_gamma. set (v := Z.of_nat (n - 1) # 2).
  pose proof (Qfloor_le v). pose proof (Qlt_floor v).
  rewrite inject_Z_plus in H0. change (inject_Z 1) with 1 in H0.
  clearbody v. revert H H0. generalize (inject_Z (Qfloor v)). intros f H H0.
  split; lra.
Qed.

Lemma lerp_mono lo' hi' lo hi g :
  0 <= g -> g <= 1 -> lo' <= lo -> hi' <= hi -> lerp lo' hi' g <= lerp lo hi g.
Proof. unfold lerp. intros. nra. Qed.

Lemma lerp_pos lo hi g : 0 <= g -> g <= 1 -> 0 < lo -> 0 < hi -> 0 < lerp lo hi g.
Proof.
  unfold lerp. intros Hg0 Hg1 Hlo Hhi.
  assert (H1 : 0 <= hi * g) by (apply Qmult_le_0_compat; lra).
  destruct (Qlt_le_dec g 1) as [Hlt | Hge].
  - assert (H2 : 0 < lo * (1 - g)) by (apply Qmult_lt_0_compat; lra). lra.
  - assert (Hg : g == 1) by lra. rewrite Hg. lra.
Qed.

End Median.

Section MedianFacts.
Local Open Scope Q_scope.




Lemma quantile_half_mono l' l : l <> [] -> Forall2 Qle l' l ->
  exists m' m, Np.quantile_half l' = Np.Fin m' /\ Np.quantile_half l = Np.Fin m /\ m' <= m.
Proof.
  intros Hl H.
  assert (Hlen : List.length l' = List.length l) by (eapply Forall2_length; eauto).
  assert (Hn : (0 < List.length l)%nat) by (destruct l; simpl; [congruence | lia]).
  assert (Hl' : l' <> []) by (destruct l'; simpl in *; [lia | congruence]).
  rewrite (quantile_half_eq l Hl), (quantile_half_eq l' Hl'), Hlen.
  do 2 eexists. repeat split.
  destruct (half_gamma_range (List.length l)).
  apply lerp_mono; try assumption.
  - apply sort_nth_mono; [assumption | now apply half_rank_lt].
  - apply sort_nth_mono; [assumption | now apply half_next_lt].
Qed.

Lemma quantile_half_pos l : l <> [] -> Forall (fun x => 0 < x) l ->
  exists m, Np.quantile_half l = Np.Fin m /\ 0 < m.
Proof.
  intros Hl H.
  assert (Hn : (0 < List.length l)%nat) by (destruct l; simpl; [congruence | lia]).
  rewrite (quantile_half_eq l Hl). eexists. split; [reflexivity |].
  destruct (half_gamma_range (List.length l)).
  apply lerp_pos; try assumption.
  - apply (sort_nth_Forall (fun x => 0 < x)); [assumption | now apply half_rank_lt].
  - apply (sort_nth_Forall (fun x => 0 < x)); [assumption | now apply half_next_lt].
Qed.

End MedianFacts.

(** ** The logarithm of the smallest rate *)

Section MinLog.

Lemma log10_fin_pos (q : Q) : (0 < q)%Q ->
  Np.log10 (Np.Fin q) = Np.Fin (Np.log10R (Q2R q)).
Proof. intro H. unfold Np.log10. now rewrite (proj1 (Qlt_alt 0 q) H). Qed.

Lemma log10_fin_zero (q : Q) : (q == 0)%Q -> Np.log10 (Np.Fin q) = Np.NInf.
Proof.
  intro H. unfold Np.log10.
  assert (H0 : (0 ?= q)%Q = Eq) by (apply Qeq_alt; now symmetry).
  now rewrite H0.
Qed.

Lemma log10_fin_neg (q : Q) : (q < 0)%Q -> Np.log10 (Np.Fin q) = Np.NaN.
Proof. intro H. unfold Np.log10. now rewrite (proj1 (Qgt_alt 0 q) H). Qed.

Lemma Q2R_pos (q : Q) : (0 < q)%Q -> (0 < Q2R q)%R.
Proof. intro H. apply Qlt_Rlt in H. now rewrite RMicromega.Q2R_0 in H. Qed.

Lemma Qmin_pos (a b : Q) : (0 < a)%Q -> (0 < b)%Q -> (0 < Qmin a b)%Q.
Proof. intros. apply Q.min_glb_lt; assumption. Qed.

Lemma fold_Qmin_pos (t : list Q) : forall r,
  (0 < r)%Q -> Forall (fun x => 0 < x)%Q t -> (0 < fold_left Qmin t r)%Q.
Proof.
  induction t as [| x t IH]; intros r Hr Ht; simpl; [assumption |].
  inversion Ht; subst. apply IH; [now apply Qmin_pos | assumption].
Qed.

Lemma fold_Qmin_le_init (t : list Q) : forall r, (fold_left Qmin t r <= r)%Q.
Proof.
  induction t as [| x t IH]; intros r; simpl; [apply Qle_refl |].
  eapply Qle_trans; [apply IH | apply Q.le_min_l].
Qed.

Lemma fold_Qmin_mono (t' t : list Q) : Forall2 Qle t' t ->
  forall r' r, (r' <= r)%Q -> (fold_left Qmin t' r' <= fold_left Qmin t r)%Q.
Proof.
  induction 1 as [| x' x t' t Hx Ht IH]; intros r' r Hr; simpl; [assumption |].
  apply IH. apply Q.min_le_compat; assumption.
Qed.

Lemma Rmin_log10 (a b : Q) : (0 < a)%Q -> (0 < b)%Q ->
  Rmin (Np.log10R (Q2R a)) (Np.log10R (Q2R b)) = Np.log10R (Q2R (Qmin a b)).
Proof.
  intros Ha Hb. destruct (Q.min_spec a b) as [[Hlt Heq] | [Hle Heq]];
    rewrite (Qeq_eqR _ _ Heq).
  - apply Rmin_left, log10R_le; [now apply Q2R_pos | apply Qle_Rle; lra].
  - apply Rmin_right, log10R_le; [now apply Q2R_pos | now apply Qle_Rle].
Qed.

(** Over positive rates, the smallest logarithm is the logarithm of the
    smallest rate. *)
Lemma min_log10_positive (t : list Q) : forall r,
  (0 < r)%Q -> Forall (fun x => 0 < x)%Q t ->
  fold_left Np.minimum (map (fun x => Np.log10 (Np.Fin x)) t)
            (Np.Fin (Np.log10R (Q2R r)))
  = Np.Fin (Np.log10R (Q2R (fold_left Qmin t r))).
Proof.
  induction t as [| x t IH]; intros r Hr Ht; cbn [map fold_left]; [reflexivity |].
  inversion Ht; subst.
  rewrite (log10_fin_pos x) by assumption. simpl Np.minimum.
  rewrite Rmin_log10 by assumption.
  apply IH; [now apply Qmin_pos | assumption].
Qed.






Lemma min2_Qmin (a b : Q) : (Py.min2 a b == Qmin a b)%Q.
Proof.
  unfold Py.min2. destruct (Qlt_le_dec b a) as [H | H].
  - symmetry. apply Q.min_r. lra.
  - symmetry. now apply Q.min_l.
Qed.

Lemma min3_Qmin (a b c : Q) : (Py.min3 a b c == Qmin (Qmin a b) c)%Q.
Proof.
  unfold Py.min3. rewrite min2_Qmin.
  apply Q.min_compat; [apply min2_Qmin | reflexivity].
Qed.

End MinLog.

(** ** Precision selection *)

Section PrecisionFacts.

Lemma select_precision_positive (params : Params) (r : Q) (t : list Q) (m : Q) :
  precision params = None ->
  Forall (fun x => 0 < x)%Q (r :: t) ->
  (0 < m)%Q ->
  (0 < ma_mut_rate params)%Q -> (0 < ms_mut_rate params)%Q ->
  select_precision (r :: t) (Np.Fin m) params =
  Ok (Z.max (Np.ceilZ (- Np.log10R (Q2R (fold_left Qmin t r))))
            (Np.ceilZ (- Np.log10R
               (Q2R (Qmin (Qmin 1 (ma_mut_rate params)) (ms_mut_rate params) * m))))
      + 3).
Proof.
  intros Hp Hpos Hm Hma Hms. unfold select_precision. rewrite Hp.
  inversion Hpos as [| ? ? Hr Ht]; subst.
  cbn [map Np.min]. rewrite (log10_fin_pos r Hr).
  rewrite (min_log10_positive t r Hr Ht).
  cbn [Py.bind Np.neg]. rewrite int_ceil_fin. cbn [Py.bind Np.mul].
  assert (Hmin : (0 < Py.min3 1 (ma_mut_rate params) (ms_mut_rate params))%Q).
  { rewrite min3_Qmin. repeat apply Qmin_pos; try assumption. reflexivity. }
  rewrite log10_fin_pos by (apply Qmult_lt_0_compat; assumption).
  cbn [Np.neg]. rewrite int_ceil_fin. cbn [Py.bind].
  rewrite (Qeq_eqR (Py.min3 1 (ma_mut_rate params) (ms_mut_rate params) * m)
                   (Qmin (Qmin 1 (ma_mut_rate params)) (ms_mut_rate params) * m))
    by (now rewrite min3_Qmin).
  reflexivity.
Qed.

End PrecisionFacts.




Section LogEvaluation.
Local Open Scope R_scope.

Lemma log10R_lt (x y : R) : 0 < x -> x < y -> Np.log10R x < Np.log10R y.
Proof.
  intros Hx Hxy. unfold Np.log10R.
  apply Rmult_lt_compat_r; [apply Rinv_0_lt_compat, ln10_pos | now apply ln_increasing].
Qed.

Lemma log10R_powerRZ (k : Z) : Np.log10R (powerRZ 10 k) = IZR k.
Proof.
  pose proof ln10_pos as H10.
  assert (Hpow : forall n : nat, ln (10 ^ n) = INR n * ln 10) by (apply ln_pow; lra).
  unfold Np.log10R. destruct k as [| p | p]; simpl powerRZ.
  - rewrite ln_1. field. lra.
  - rewrite Hpow, INR_IZR_INZ, positive_nat_Z. field. lra.
  - rewrite ln_Rinv by (apply pow_lt; lra).
    rewrite Hpow, INR_IZR_INZ, positive_nat_Z.
    change (Z.neg p) with (- Z.pos p)%Z. rewrite opp_IZR. field. lra.
Qed.

(** [ceil(-log10 x) = k] when [10^-k <= x < 10^(1-k)]. *)
Lemma ceil_neg_log10 (x : R) (k : Z) :
  powerRZ 10 (- k) <= x < powerRZ 10 (1 - k) ->
  Np.ceilZ (- Np.log10R x) = k.
Proof.
  intros [Hlo Hhi].
  assert (Hp : 0 < powerRZ 10 (- k)) by (apply powerRZ_lt; lra).
  assert (Hx : 0 < x) by lra.
  apply ceilZ_spec.
  pose proof (log10R_le _ _ Hp Hlo) as H1.
  pose proof (log10R_lt _ _ Hx Hhi) as H2.
  rewrite log10R_powerRZ in H1, H2. rewrite opp_IZR in H1.
  rewrite minus_IZR in H2. lra.
Qed.

End LogEvaluation.

(** The precision selected for the rates [0.001, 0.01] and the default
    multipliers: three digits for the smallest rate, five for the smallest
    mutation probability [0.01 * 0.0055], and the margin of three. *)
Example select_precision_default_multipliers :
  let params := Fixture.params [0; 1 # 1000; 1 # 100]%Q (1 # 10) (1 # 100) None in
  select_precision (tl (rec_rate params)) (Np.quantile_half (tl (rec_rate params))) params
  = Ok 8.
Proof.
  cbv zeta. cbn [tl rec_rate Fixture.params].
  set (base := Np.quantile_half _). vm_compute in base. subst base.
  rewrite select_precision_positive; try reflexivity; [| repeat constructor].
  rewrite (ceil_neg_log10 _ 3), (ceil_neg_log10 _ 5); [reflexivity | |].
  - rewrite (Qeq_eqR _ (55 # 1000000)) by reflexivity.
    unfold Q2R. simpl. lra.
  - rewrite (Qeq_eqR _ (1 # 1000)) by reflexivity.
    unfold Q2R. simpl. lra.
Qed.

Section DegenerateRates.




End DegenerateRates.

Section RunPrefix.

Context {AncestorData TreeSequence : Type} (E : Engine AncestorData TreeSequence).

(** A failure of the precision selection ends [run] where it started. *)
Lemma run_select_precision_raises (params : Params) (st : state AncestorData TreeSequence)
    (e : exn) :
  select_precision (tl (rec_rate params)) (Np.quantile_half (tl (rec_rate params))) params
  = Raise e ->
  run E params st = (Raise e, st).
Proof. intro H. unfold run, bindM, lift. now rewrite H. Qed.

End RunPrefix.



(** ** Monotonicity of the selected precision *)

Section PrecisionMonotone.

Lemma ceilZ_nonneg (r : R) : (0 <= r)%R -> 0 <= Np.ceilZ r.
Proof.
  intro H. apply le_IZR. destruct (ceilZ_bounds r). lra.
Qed.

Lemma neg_log10_mono (a' a : Q) : (0 < a')%Q -> (a' <= a)%Q ->
  Np.ceilZ (- Np.log10R (Q2R a)) <= Np.ceilZ (- Np.log10R (Q2R a')).
Proof.
  intros Hpos Hle. apply ceilZ_mono. apply Ropp_le_contravar.
  apply log10R_le; [now apply Q2R_pos | now apply Qle_Rle].
Qed.

Lemma Forall2_le_pos (l' l : list Q) :
  Forall2 Qle l' l -> Forall (fun x => 0 < x)%Q l' -> Forall (fun x => 0 < x)%Q l.
Proof.
  induction 1 as [| x' x t' t Hx Ht IH]; intro H; [constructor |].
  inversion H; subst. constructor; [lra | auto].
Qed.

End PrecisionMonotone.

(** C6 (as amended): with no override, positive rates and positive
    multipliers, shrinking any rates or multipliers never lowers the
    selected precision; and the precision is at least 3 when the smallest
    rate is at most 1. *)
Theorem selected_precision_monotone (params params' : Params) (r r' : Q) (t t' : list Q) :
  precision params = None -> precision params' = None ->
  tl (rec_rate params) = r :: t -> tl (rec_rate params') = r' :: t' ->
  Forall2 Qle (r' :: t') (r :: t) ->
  Forall (fun x => 0 < x)%Q (r' :: t') ->
  (0 < ma_mut_rate params' <= ma_mut_rate params)%Q ->
  (0 < ms_mut_rate params' <= ms_mut_rate params)%Q ->
  exists p p',
    select_precision (tl (rec_rate params)) (Np.quantile_half (tl (rec_rate params))) params
      = Ok p /\
    select_precision (tl (rec_rate params')) (Np.quantile_half (tl (rec_rate params'))) params'
      = Ok p' /\
    p <= p' /\
    ((fold_left Qmin t r <= 1)%Q -> 3 <= p).
Proof.
  intros Hp Hp' Hrho Hrho' Hle Hpos' [Hma' Hma] [Hms' Hms].
  pose proof (Forall2_le_pos _ _ Hle Hpos') as Hpos.
  rewrite Hrho, Hrho'.
  destruct (quantile_half_mono (r' :: t') (r :: t)) as (m' & m & Hq' & Hq & Hm);
    [discriminate | assumption |].
  destruct (quantile_half_pos (r' :: t')) as (m0 & Hq0 & Hm0); [discriminate | assumption |].
  rewrite Hq' in Hq0. injection Hq0 as <-.
  assert (Hmpos : (0 < m)%Q) by lra.
  rewrite Hq, Hq'.
  rewrite (select_precision_positive params r t m); try assumption; try lra.
  rewrite (select_precision_positive params' r' t' m'); try assumption.
  do 2 eexists. split; [reflexivity |]. split; [reflexivity |].
  inversion Hle as [| ? ? ? ? Hr Ht]; subst.
  inversion Hpos' as [| ? ? Hr' Ht']; subst.
  set (a := Qmin (Qmin 1 (ma_mut_rate params)) (ms_mut_rate params)).
  set (a' := Qmin (Qmin 1 (ma_mut_rate params')) (ms_mut_rate params')).
  assert (Ha' : (0 < a')%Q) by (repeat apply Qmin_pos; try assumption; reflexivity).
  assert (Haa : (a' <= a)%Q).
  { apply Q.min_le_compat; [| assumption].
    apply Q.min_le_compat; [apply Qle_refl | assumption]. }
  split.
  - apply Z.add_le_mono_r. apply Z.max_le_compat.
    + apply neg_log10_mono; [now apply fold_Qmin_pos | now apply fold_Qmin_mono].
    + apply neg_log10_mono; [now apply Qmult_lt_0_compat |].
      apply Qle_trans with (a' * m)%Q.
      * apply Qmult_le_l; assumption.
      * apply Qmult_le_r; assumption.
  - intro Hone.
    assert (H0 : 0 <= Np.ceilZ (- Np.log10R (Q2R (fold_left Qmin t r)))).
    { apply ceilZ_nonneg.
      assert (Hl : (Np.log10R (Q2R (fold_left Qmin t r)) <= Np.log10R 1)%R).
      { apply log10R_le.
        - apply Q2R_pos, fold_Qmin_pos; [| inversion Hpos; assumption].
          inversion Hpos; assumption.
        - apply Qle_Rle in Hone. now rewrite RMicromega.Q2R_1 in Hone. }
      rewrite log10R_1 in Hl. lra. }
    lia.
Qed.

Lemma selected_precision_monotone_witness :
  let params := Fixture.params [0; 1 # 1000; 1 # 100]%Q (1 # 10) (1 # 100) None in
  let params' := Fixture.params [0; 1 # 10000; 1 # 100]%Q (1 # 10) (1 # 100) None in
  exists p p',
    select_precision (tl (rec_rate params)) (Np.quantile_half (tl (rec_rate params))) params
      = Ok p /\
    select_precision (tl (rec_rate params')) (Np.quantile_half (tl (rec_rate params'))) params'
      = Ok p' /\
    p <= p' /\
    ((fold_left Qmin [1 # 100] (1 # 1000) <= 1)%Q -> 3 <= p).
Proof.
  apply (selected_precision_monotone
           (Fixture.params [0; 1 # 1000; 1 # 100]%Q (1 # 10) (1 # 100) None)
           (Fixture.params [0; 1 # 10000; 1 # 100]%Q (1 # 10) (1 # 100) None)
           (1 # 1000) (1 # 10000) [1 # 100]%Q [1 # 100]%Q).
  - reflexivity.
  - reflexivity.
  - reflexivity.
  - reflexivity.
  - repeat constructor; discriminate.
  - repeat constructor.
  - split; [reflexivity | discriminate].
  - split; [reflexivity | discriminate].
Defined.

(** C6, as stated, fails on its lower bound: one rate of 10 after the
    sentinel (a genetic distance above 1) with both multipliers 1 is a
    positive rate array, and the precision selected for it is 2. *)
Lemma selected_precision_below_three :
  let params := Fixture.params [0; 10]%Q 1 1 None in
  exists p,
    select_precision (tl (rec_rate params)) (Np.quantile_half (tl (rec_rate params))) params
      = Ok p /\
    p < 3.
Proof.
  exists 2. split; [| lia].
  cbv zeta. cbn [tl rec_rate Fixture.params].
  set (base := Np.quantile_half _). vm_compute in base. subst base.
  rewrite select_precision_positive; try reflexivity; [| repeat constructor].
  rewrite !(ceil_neg_log10 _ (-1)); [reflexivity | |].
  - rewrite (Qeq_eqR _ 10) by reflexivity. unfold Q2R. simpl. lra.
  - unfold Q2R. simpl. lra.
Qed.

(** ** Topology statistics of binary trees *)

Section BinaryTrees.
Local Open Scope Q_scope.

Lemma count_node_balanced (t : Tree) (acc : Q * Q * Q) (n : nat) :
  0 < span t ->
  num_children t n = 0%nat \/ num_children t n = 2%nat ->
  balanced acc ->
  balanced (count_node t acc n) /\ total acc <= total (count_node t acc n) /\
  ((0 < num_children t n)%nat -> 0 < total (count_node t acc n)).
Proof.
  intros Hs Hn Hb. destruct acc as [[a b] c]. unfold count_node.
  destruct Hb as (Ha & Hb & Hc).
  destruct Hn as [-> | ->]; cbn [Nat.ltb Nat.leb total snd balanced].
  - repeat split; try assumption; try lra. intro H. lia.
  - change (inject_Z (Z.of_nat 2)) with 2.
    change (inject_Z (Z.of_nat (2 ^ 2))) with 4.
    repeat split; lra.
Qed.

Lemma count_tree_balanced (t : Tree) : 0 < span t -> binary t ->
  forall acc, balanced acc ->
  balanced (count_tree acc t) /\ total acc <= total (count_tree acc t) /\
  (has_internal_node t -> 0 < total (count_tree acc t)).
Proof.
  intros Hs Hbin. unfold count_tree, binary, has_internal_node in *.
  induction Hbin as [| n ns Hn Hns IH]; intros acc Hacc; cbn [fold_left].
  - repeat split; [assumption | apply Qle_refl |]. intro H. inversion H.
  - destruct (count_node_balanced t acc n Hs Hn Hacc) as (Hb1 & Hle1 & Hpos1).
    destruct (IH _ Hb1) as (Hb2 & Hle2 & Hpos2).
    repeat split; [assumption | lra |].
    intro H. inversion H as [? ? Hhd | ? ? Htl]; subst; [| auto].
    specialize (Hpos1 Hhd). lra.
Qed.

Lemma children_stats_balanced (acc : Q * Q * Q) :
  balanced acc -> 0 < total acc ->
  exists mean var,
    (let '(nc_sum, nc_sum_sq, nc_tot) := acc in
     nc_mean <- Py.div nc_sum nc_tot ;;
     second_moment <- Py.div nc_sum_sq nc_tot ;;
     Ok (nc_mean, second_moment - nc_mean ^ 2)) = Ok (mean, var) /\
    mean == 2 /\ var == 0.
Proof.
  destruct acc as [[a b] c]. cbn [balanced total snd].
  intros (Ha & Hb & Hc) Hpos.
  assert (Hnz : ~ c == 0) by lra.
  unfold Py.div. destruct (Qeq_bool c 0) eqn:Hz.
  - apply Qeq_bool_iff in Hz. contradiction.
  - cbn [Py.bind]. do 2 eexists. split; [reflexivity |].
    rewrite Ha, Hb. split; field; assumption.
Qed.

End BinaryTrees.

(** C7 (as amended): for one local tree of positive span that has at
    least one internal node, every internal node having exactly two
    children, the mean number of children is 2 and the variance is 0. *)
Theorem binary_tree_children_stats (t : Tree) :
  (0 < span t)%Q ->
  binary t ->
  has_internal_node t ->
  exists mean var,
    children_stats [t] = Ok (mean, var) /\ (mean == 2)%Q /\ (var == 0)%Q.
Proof.
  intros Hs Hbin Hint. unfold children_stats. cbn [fold_left].
  assert (H0 : balanced (0, 0, 0)%Q) by (cbn; repeat split; lra).
  destruct (count_tree_balanced t Hs Hbin _ H0) as (Hb & _ & Hpos).
  apply children_stats_balanced; auto.
Qed.

Lemma binary_tree_children_stats_witness :
  exists mean var,
    children_stats [Fixture.binary_tree] = Ok (mean, var) /\ (mean == 2)%Q /\ (var == 0)%Q.
Proof.
  apply (binary_tree_children_stats Fixture.binary_tree).
  - reflexivity.
  - unfold binary. simpl.
    repeat (constructor; [first [left; reflexivity | right; reflexivity] |]).
    constructor.
  - apply Exists_cons_hd. simpl. lia.
Defined.

(** C7, as stated, fails for a tree without internal nodes, where "every
    internal node has two children" holds of no node at all: for a single
    isolated sample the span total stays 0 and the mean is a division by
    zero. *)
Lemma lone_sample_children_stats :
  let t := {| span := 10000%Q; nodes := [0%nat]; num_children := fun _ => 0%nat |} in
  binary t /\ children_stats [t] = Raise ZeroDivisionError.
Proof. split; [repeat constructor | reflexivity]. Qed.

(** ** The chromosome token *)

Section ChromosomeToken.
Local Open Scope string_scope.

Lemma prefix_chr (s : string) :
  prefix "chr" s = true -> s = "chr" ++ Str.drop 3 s.
Proof.
  intro H.
  destruct s as [| a [| b [| c rest]]]; cbn [prefix] in H; try discriminate;
    repeat match type of H with
           | context [ascii_dec ?x ?y] => destruct (ascii_dec x y); try discriminate
           end.
  subst. reflexivity.
Qed.

Lemma take_digits_empty (s : string) :
  Str.take_digits s = "" ->
  s = "" \/ exists c t, s = String c t /\ Str.is_digit c = false.
Proof.
  destruct s as [| c t]; [now left |]. simpl.
  destruct (Str.is_digit c) eqn:Hc; [discriminate |].
  intros _. right. now exists c, t.
Qed.

Lemma search_chr_none (s : string) :
  ~ has_chromosome_token s -> Str.search_chr s = None.
Proof.
  induction s as [| c t IH]; intro Hno; [reflexivity |].
  assert (Ht : Str.search_chr t = None).
  { apply IH. intros (pre & d & post & -> & Hd).
    apply Hno. exists (String c pre), d, post. now split. }
  cbn [Str.search_chr]. rewrite Ht.
  destruct (prefix "chr" (String c t)) eqn:Hp; [| reflexivity].
  apply prefix_chr in Hp.
  destruct (Str.take_digits (Str.drop 3 (String c t))) eqn:Hd; [reflexivity |].
  exfalso. apply Hno.
  destruct (Str.drop 3 (String c t)) as [| d post] eqn:Hrest; [discriminate |].
  simpl in Hd. destruct (Str.is_digit d) eqn:Hdig; [| discriminate].
  exists "", d, post. split; [exact Hp | exact Hdig].
Qed.

Lemma search_chr_some (s : string) :
  has_chromosome_token s -> exists chr, Str.search_chr s = Some chr.
Proof.
  intros (pre & d & post & -> & Hd).
  induction pre as [| c pre IH].
  - cbn [append]. cbn [Str.search_chr prefix]. simpl. rewrite Hd. eauto.
  - destruct IH as (chr & IH).
    change (String c pre ++ "chr" ++ String d post)
      with (String c (pre ++ "chr" ++ String d post)).
    cbn [Str.search_chr]. rewrite IH.
    destruct (if prefix "chr" _ then _ else _); eauto.
Qed.

End ChromosomeToken.

(** ** First differences *)

Section Differences.
Local Open Scope Q_scope.

Lemma diff_length (a : list Q) : List.length (Np.diff a) = (List.length a - 1)%nat.
Proof.
  induction a as [| x [| y t] IH]; [reflexivity | reflexivity |].
  cbn [Np.diff List.length] in *. rewrite IH. lia.
Qed.

Lemma diff_nth (a : list Q) : forall i, (S i < List.length a)%nat ->
  nth i (Np.diff a) 0 = nth (S i) a 0 - nth i a 0.
Proof.
  induction a as [| x [| y t] IH]; intros i Hi; cbn [List.length] in Hi; try lia.
  destruct i as [| i]; [reflexivity |].
  cbn [Np.diff]. cbn [nth]. rewrite IH by (cbn [List.length]; lia). reflexivity.
Qed.

(** Between increasing positions inside [[0, len)], every difference is
    inside [[0, len]]. *)
Lemma diff_bounded (len : Q) (a : list Q) :
  sorted a -> Forall (fun p => 0 <= p /\ p < len) a ->
  Forall (fun d => 0 <= d /\ d <= len) (Np.diff a).
Proof.
  induction a as [| x [| y t] IH]; intros Hs Hb; [constructor | constructor |].
  inversion Hs as [| ? ? Hx Hs']; subst.
  inversion Hb as [| ? ? [Hx0 Hxl] Hb']; subst.
  cbn [Np.diff]. constructor; [| now apply IH].
  inversion Hx as [| ? ? Hxy _]; subst.
  inversion Hb' as [| ? ? [Hy0 Hyl] _]; subst. simpl in Hxy. split; lra.
Qed.

Lemma true_divide_unit (len d : Q) : 0 <= d -> d <= len -> 0 < len ->
  exists q, Np.true_divide d len = Np.Fin q /\ 0 <= q /\ q <= 1.
Proof.
  intros Hd Hdl Hlen. unfold Np.true_divide.
  destruct (Qeq_bool len 0) eqn:Hz.
  - apply Qeq_bool_iff in Hz. lra.
  - eexists. split; [reflexivity |]. split.
    + apply Qle_shift_div_l; lra.
    + apply Qle_shift_div_r; lra.
Qed.

End Differences.

(** ** The rate array of [setup_sample_file] *)

(** C5 (as amended): for a file name without a chromosome token the rate
    array is the 0.0 sentinel followed by the first differences of the
    positions of the inference sites, each divided by the sequence length;
    its length is the number of inference sites when there is at least one
    (and 1 when there is none); and for increasing positions inside
    [[0, sequence_length)] every value lies in [[0, 1]]. *)
Theorem physical_rate_array {AncestorData TreeSequence : Type}
    (E : Engine AncestorData TreeSequence) (filename : string) (sd : SampleData) :
  Str.endswith filename ".samples" = true ->
  tsinfer_load E filename = Done sd ->
  ~ has_chromosome_token filename ->
  let positions := Np.mask_select (sites_position sd) (sites_inference sd) in
  exists rho,
    setup_sample_file E filename
      = Ok (sd, rho, Str.drop_last 8 filename, None) /\
    nth 0 rho Np.NaN = Np.Fin 0%Q /\
    (forall i, (1 <= i < List.length positions)%nat ->
       nth i rho Np.NaN =
       Np.true_divide (nth i positions 0 - nth (i - 1) positions 0)%Q (sequence_length sd)) /\
    List.length rho = Nat.max 1 (List.length positions) /\
    (sorted positions ->
     Forall (fun p => 0 <= p /\ p < sequence_length sd)%Q positions ->
     Forall (fun v => exists q, v = Np.Fin q /\ (0 <= q)%Q /\ (q <= 1)%Q) rho).
Proof.
  intros Hsuffix Hload Hno positions.
  unfold setup_sample_file. rewrite Hsuffix, Hload, (search_chr_none _ Hno).
  cbn [negb of_outcome Py.bind]. fold positions.
  eexists. split; [reflexivity |]. split; [reflexivity |]. split; [| split].
  - intros i [Hi1 Hi2]. destruct i as [| i]; [lia |].
    cbn [nth]. replace (S i - 1)%nat with i by lia.
    rewrite <- (diff_nth positions i) by lia.
    rewrite (nth_indep _ Np.NaN (Np.true_divide 0 (sequence_length sd))).
    + apply (map_nth (fun d => Np.true_divide d (sequence_length sd))).
    + rewrite length_map, diff_length. lia.
  - cbn [List.length]. rewrite length_map, diff_length. lia.
  - intros Hs Hb. constructor.
    + exists 0%Q. repeat split; discriminate.
    + apply Forall_map. pose proof (diff_bounded _ _ Hs Hb) as Hd.
      destruct positions as [| p0 rest]; [constructor |].
      assert (Hlen : (0 < sequence_length sd)%Q).
      { inversion Hb as [| ? ? [H0 H1] _]; subst. lra. }
      eapply Forall_impl; [| exact Hd].
      intros d [Hd0 Hd1]. now apply true_divide_unit.
Qed.

Lemma search_chr_no_token (s : string) :
  Str.search_chr s = None -> ~ has_chromosome_token s.
Proof.
  intros Hnone Htoken. destruct (search_chr_some s Htoken) as [chr Hchr]. congruence.
Qed.

Lemma physical_rate_array_witness :
  let E := Fixture.engine (fun _ => false) Fixture.sd in
  let positions := [0; 100; 500; 2000; 9999]%Q in
  exists rho,
    setup_sample_file E "sim.samples"
      = Ok (Fixture.sd, rho, Str.drop_last 8 "sim.samples", None) /\
    nth 0 rho Np.NaN = Np.Fin 0%Q /\
    (forall i, (1 <= i < List.length positions)%nat ->
       nth i rho Np.NaN =
       Np.true_divide (nth i positions 0 - nth (i - 1) positions 0)%Q 10000%Q) /\
    List.length rho = Nat.max 1 (List.length positions) /\
    (sorted positions ->
     Forall (fun p => 0 <= p /\ p < 10000)%Q positions ->
     Forall (fun v => exists q, v = Np.Fin q /\ (0 <= q)%Q /\ (q <= 1)%Q) rho).
Proof.
  apply (physical_rate_array (Fixture.engine (fun _ => false) Fixture.sd)
           "sim.samples" Fixture.sd).
  - reflexivity.
  - reflexivity.
  - apply search_chr_no_token. reflexivity.
Defined.

(** C5, as stated, fails on the length when no site is marked for
    inference: the sentinel is prepended all the same, so the array has one
    entry for zero sites. *)
Lemma rate_array_without_inference_sites :
  let E := Fixture.engine (fun _ => false) Fixture.sd_no_inference in
  ~ has_chromosome_token "sim.samples" /\
  Np.mask_select (sites_position Fixture.sd_no_inference)
                 (sites_inference Fixture.sd_no_inference) = [] /\
  setup_sample_file E "sim.samples"
    = Ok (Fixture.sd_no_inference, [Np.Fin 0%Q], "sim"%string, None).
Proof.
  split; [apply search_chr_no_token; reflexivity |].
  split; reflexivity.
Qed.

(** ** Physical to genetic positions *)

Section GeneticPositions.
Local Open Scope Q_scope.

Lemma genetic_position_left (pos : list Q) : forall rates x,
  increasing pos -> (forall p, In p pos -> x <= p) ->
  genetic_position pos rates x == 0.
Proof.
  induction pos as [| p0 [| p1 rest] IH]; intros rates x Hinc Hx;
    [reflexivity | reflexivity |].
  destruct rates as [| r0 rates']; [reflexivity |].
  cbn [genetic_position].
  inversion Hinc as [| ? ? Hlt Hinc']; subst.
  rewrite (IH rates' x Hinc') by (intros p Hp; apply Hx; now right).
  assert (H0 : x <= p0) by (apply Hx; now left).
  assert (H1 : p0 < p1) by (inversion Hlt; assumption).
  rewrite (Q.max_r x p0) by assumption.
  rewrite (Q.min_l p0 p1) by lra. ring.
Qed.

Lemma scan_shift (key : Q) (t : list Q) : forall i,
  Interp.scan key t (S i) = S (Interp.scan key t i).
Proof.
  induction t as [| y t IH]; intro i; cbn [Interp.scan]; [reflexivity |].
  destruct (Qle_bool y key); [apply IH | reflexivity].
Qed.

Lemma scan_bound (key : Q) (t : list Q) : forall i,
  (Interp.scan key t i <= i + List.length t)%nat.
Proof.
  induction t as [| y t IH]; intro i; cbn [Interp.scan List.length]; [lia |].
  destruct (Qle_bool y key); [specialize (IH (S i)) |]; lia.
Qed.

Lemma nth_Qeq (fp fp' : list Q) : Forall2 Qeq fp fp' ->
  forall k, nth k fp 0 == nth k fp' 0.
Proof.
  induction 1 as [| a b t t' Hab Ht IH]; intros [| k]; cbn [nth];
    try reflexivity; [assumption | apply IH].
Qed.

(** The interpolation depends on the values only up to their value as
    rationals. *)
Lemma interp_one_ext (xp fp fp' : list Q) (x : Q) :
  Forall2 Qeq fp fp' -> Interp.interp_one xp fp x == Interp.interp_one xp fp' x.
Proof.
  intro H. pose proof (nth_Qeq fp fp' H) as Hn. unfold Interp.interp_one.
  destruct (Qlt_le_dec _ x); [apply Hn |].
  destruct (Qlt_le_dec x _); [apply Hn |].
  destruct (Nat.eqb _ _); [apply Hn |].
  destruct (Qeq_bool _ x); [apply Hn |].
  rewrite (Hn (S (Interp.search x xp))), (Hn (Interp.search x xp)). reflexivity.
Qed.

Lemma nth_map_plus (c : Q) (fp : list Q) : forall k, (k < List.length fp)%nat ->
  nth k (map (Qplus c) fp) 0 = c + nth k fp 0.
Proof.
  induction fp as [| a t IH]; intros [| k] Hk; cbn [List.length] in Hk; try lia;
    cbn [map nth]; [reflexivity | apply IH; lia].
Qed.

Lemma search_bound (x : Q) (xp : list Q) : (Interp.search x xp <= List.length xp - 1)%nat.
Proof.
  destruct xp as [| p t]; [simpl; lia |]. cbn [Interp.search List.length].
  pose proof (scan_bound x t 0). lia.
Qed.

(** Adding a constant to the values adds it to the interpolation. *)
Lemma interp_one_translate (c : Q) (xp fp : list Q) (x : Q) :
  xp <> [] -> List.length fp = List.length xp ->
  Interp.interp_one xp (map (Qplus c) fp) x == c + Interp.interp_one xp fp x.
Proof.
  intros Hne Hlen.
  assert (Hpos : (0 < List.length xp)%nat) by (destruct xp; simpl; [congruence | lia]).
  pose proof (search_bound x xp) as Hj.
  unfold Interp.interp_one.
  destruct (Qlt_le_dec _ x); [rewrite nth_map_plus by lia; reflexivity |].
  destruct (Qlt_le_dec x _); [rewrite nth_map_plus by lia; reflexivity |].
  destruct (Nat.eqb _ _) eqn:Hlast; [rewrite nth_map_plus by lia; reflexivity |].
  apply Nat.eqb_neq in Hlast.
  destruct (Qeq_bool _ x); [rewrite nth_map_plus by lia; reflexivity |].
  rewrite !nth_map_plus by lia.
  set (a := nth (S (Interp.search x xp)) fp 0).
  set (b := nth (Interp.search x xp) fp 0).
  setoid_replace (c + a - (c + b)) with (a - b) by ring. ring.
Qed.

End GeneticPositions.

Section InterpolationRefinement.
Local Open Scope Q_scope.

Lemma cumsum_from_translate (c : Q) (l : list Q) : forall e d, e == c + d ->
  Forall2 Qeq (Np.cumsum_from e l) (map (Qplus c) (Np.cumsum_from d l)).
Proof.
  induction l as [| x t IH]; intros e d H; cbn [Np.cumsum_from map]; constructor.
  - rewrite H. ring.
  - apply IH. rewrite H. ring.
Qed.

(** The genetic positions of the breakpoints after the first interval are
    those of the rest of the map, moved by the length of that interval. *)
Lemma map_genetic_positions_cons (s0 : Q) (steps : list Q) :
  Forall2 Qeq (s0 :: Np.cumsum_from s0 steps) (map (Qplus s0) (0 :: Np.cumsum steps)).
Proof.
  cbn [map]. constructor; [ring |].
  destruct steps as [| x t]; cbn [Np.cumsum Np.cumsum_from map]; constructor.
  - reflexivity.
  - apply cumsum_from_translate. reflexivity.
Qed.

Lemma last_point_ge (p : Q) (rest : list Q) :
  Forall (fun y => p < y) rest -> p <= nth (List.length rest) (p :: rest) 0.
Proof.
  intro H. destruct rest as [| q rest']; [apply Qle_refl |].
  change (nth (List.length (q :: rest')) (p :: q :: rest') 0)
    with (nth (List.length rest') (q :: rest') 0).
  rewrite Forall_forall in H. apply Qlt_le_weak, H.
  apply nth_In. cbn [List.length]. lia.
Qed.

Lemma cumsum_from_length (l : list Q) : forall acc,
  List.length (Np.cumsum_from acc l) = List.length l.
Proof.
  induction l as [| x t IH]; intro acc; cbn [Np.cumsum_from List.length];
    [reflexivity | now rewrite IH].
Qed.

Lemma cumsum_length (l : list Q) : List.length (Np.cumsum l) = List.length l.
Proof.
  destruct l as [| x t]; cbn [Np.cumsum List.length];
    [reflexivity | now rewrite cumsum_from_length].
Qed.

Lemma zip_mul_length (a : list Q) : forall b,
  List.length a = List.length b ->
  List.length (Broadcast.zip_mul a b) = List.length a.
Proof.
  induction a as [| x t IH]; intros [| y b] H; cbn [List.length] in *;
    try lia; cbn [Broadcast.zip_mul List.length]; [reflexivity | rewrite IH; lia].
Qed.

Lemma removelast_length (l : list Q) :
  List.length (removelast l) = (List.length l - 1)%nat.
Proof.
  induction l as [| x [| y t] IH]; [reflexivity | reflexivity |].
  change (removelast (x :: y :: t)) with (x :: removelast (y :: t)).
  cbn [List.length] in *. rewrite IH. lia.
Qed.

Lemma map_genetic_positions_length (pos rates : list Q) :
  pos <> [] -> List.length rates = List.length pos ->
  List.length (map_genetic_positions pos rates) = List.length pos.
Proof.
  intros Hne Hlen. unfold map_genetic_positions. cbn [List.length].
  rewrite cumsum_length, zip_mul_length; rewrite diff_length.
  - destruct pos; [congruence | cbn [List.length]; lia].
  - rewrite removelast_length. lia.
Qed.

(** At or after the second point, the first point plays no part. *)
Lemma interp_one_shift (p0 p1 g0 : Q) (rest gs : list Q) (x : Q) :
  p0 < p1 -> p1 <= x ->
  Interp.interp_one (p0 :: p1 :: rest) (g0 :: gs) x = Interp.interp_one (p1 :: rest) gs x.
Proof.
  intros H01 H1x. unfold Interp.interp_one.
  cbn [List.length]. replace (S (S (List.length rest)) - 1)%nat with (S (List.length rest)) by lia.
  replace (S (List.length rest) - 1)%nat with (List.length rest) by lia.
  cbn [nth].
  destruct (Qlt_le_dec _ x); [reflexivity |].
  destruct (Qlt_le_dec x p0); [lra |].
  destruct (Qlt_le_dec x p1); [lra |].
  cbn [Interp.search Interp.scan].
  assert (Hle : Qle_bool p1 x = true) by (now apply Qle_bool_iff).
  rewrite Hle, scan_shift. cbn [Nat.eqb nth]. reflexivity.
Qed.

Lemma interp_one_singleton (p g x : Q) : Interp.interp_one [p] [g] x = g.
Proof.
  unfold Interp.interp_one. cbn [List.length Nat.sub nth Interp.search Interp.scan Nat.eqb].
  destruct (Qlt_le_dec p x); [reflexivity |].
  destruct (Qlt_le_dec x p); reflexivity.
Qed.

(** Inside the first interval the interpolation is the rate times the
    distance from the first point. *)
Lemma interp_one_first (p0 p1 g1 r0 : Q) (rest gs : list Q) (x : Q) :
  p0 < p1 -> Forall (fun y => p1 < y) rest ->
  g1 == (p1 - p0) * r0 ->
  p0 <= x -> x < p1 ->
  Interp.interp_one (p0 :: p1 :: rest) (0 :: g1 :: gs) x == (x - p0) * r0.
Proof.
  intros H01 Hrest Hg H0x Hx1. unfold Interp.interp_one.
  cbn [List.length]. replace (S (S (List.length rest)) - 1)%nat with (S (List.length rest)) by lia.
  cbn [nth].
  destruct (Qlt_le_dec _ x) as [Hlast | Hlast].
  - exfalso. pose proof (last_point_ge p1 rest Hrest) as Hge. cbn [nth] in Hge. lra.
  - destruct (Qlt_le_dec x p0); [lra |].
    cbn [Interp.search Interp.scan].
    assert (Hle : Qle_bool p1 x = false).
    { destruct (Qle_bool p1 x) eqn:E; [| reflexivity]. apply Qle_bool_iff in E. lra. }
    rewrite Hle. cbn [Nat.eqb nth].
    destruct (Qeq_bool p0 x) eqn:Heq.
    + apply Qeq_bool_iff in Heq. rewrite <- Heq. ring.
    + rewrite Hg. field. lra.
Qed.

(** [np.interp] over the map's breakpoints computes the genetic position. *)
Lemma interp_one_genetic_position (pos : list Q) : forall rates x,
  pos <> [] -> List.length rates = List.length pos -> increasing pos ->
  Interp.interp_one pos (map_genetic_positions pos rates) x
  == genetic_position pos rates x.
Proof.
  induction pos as [| p0 [| p1 rest] IH]; intros rates x Hne Hlen Hinc; [congruence | |].
  - destruct rates as [| r0 [| r1 rates']]; cbn [List.length] in Hlen; try lia.
    unfold map_genetic_positions.
    cbn [Np.diff removelast Broadcast.zip_mul Np.cumsum genetic_position].
    rewrite interp_one_singleton. reflexivity.
  - destruct rates as [| r0 [| r1 rates']]; cbn [List.length] in Hlen; try lia.
    inversion Hinc as [| ? ? Hlt Hinc']; subst.
    assert (H01 : p0 < p1) by (inversion Hlt; assumption).
    set (s0 := (p1 - p0) * r0).
    assert (HG : map_genetic_positions (p0 :: p1 :: rest) (r0 :: r1 :: rates')
                 = 0 :: s0 :: Np.cumsum_from s0
                     (Broadcast.zip_mul (Np.diff (p1 :: rest)) (removelast (r1 :: rates')))).
    { reflexivity. }
    rewrite HG. clear HG.
    change (genetic_position (p0 :: p1 :: rest) (r0 :: r1 :: rates') x)
      with ((Qmin (Qmax x p0) p1 - p0) * r0
            + genetic_position (p1 :: rest) (r1 :: rates') x).
    destruct (Qlt_le_dec x p1) as [Hx1 | Hx1].
    + (* before the second breakpoint *)
      rewrite (genetic_position_left (p1 :: rest)); [| assumption |].
      2:{ intros p [<- | Hp]; [lra |].
          inversion Hinc' as [| ? ? Hlt' _]; subst.
          rewrite Forall_forall in Hlt'. specialize (Hlt' _ Hp). simpl in Hlt'. lra. }
      destruct (Qlt_le_dec x p0) as [Hx0 | Hx0].
      * rewrite (Q.max_r x p0) by lra. rewrite (Q.min_l p0 p1) by lra.
        unfold Interp.interp_one. cbn [List.length].
        replace (S (S (List.length rest)) - 1)%nat with (S (List.length rest)) by lia.
        cbn [nth].
        destruct (Qlt_le_dec _ x) as [Hlast | Hlast].
        -- exfalso.
           assert (Hge : p1 <= nth (List.length rest) (p1 :: rest) 0)
             by (apply last_point_ge; inversion Hinc'; assumption).
           cbn [nth] in Hge. lra.
        -- destruct (Qlt_le_dec x p0); [ring | lra].
      * rewrite (Q.max_l x p0) by lra. rewrite (Q.min_l x p1) by lra.
        rewrite interp_one_first with (r0 := r0); try assumption.
        -- ring.
        -- inversion Hinc'; assumption.
        -- reflexivity.
    + (* at or after the second breakpoint *)
      rewrite interp_one_shift by assumption.
      rewrite (interp_one_ext _ _ _ _ (map_genetic_positions_cons s0 _)).
      fold (map_genetic_positions (p1 :: rest) (r1 :: rates')).
      rewrite interp_one_translate.
      * rewrite IH; [| discriminate | cbn [List.length] in *; lia | assumption].
        rewrite (Q.max_l x p0) by lra. rewrite (Q.min_r x p1) by lra.
        unfold s0. ring.
      * discriminate.
      * apply map_genetic_positions_length; [discriminate |].
        cbn [List.length] in *. lia.
Qed.

End InterpolationRefinement.

Section GeneticPositionShape.
Local Open Scope Q_scope.

Lemma increasing_head_le (p : Q) (rest : list Q) :
  increasing (p :: rest) -> forall q, In q (p :: rest) -> p <= q.
Proof.
  intros Hinc q [<- | Hq]; [apply Qle_refl |].
  inversion Hinc as [| ? ? Hlt _]; subst.
  rewrite Forall_forall in Hlt. apply Qlt_le_weak, Hlt, Hq.
Qed.

(** The genetic position is 0 at the first breakpoint. *)
Lemma genetic_position_first (p : Q) (rest rates : list Q) :
  increasing (p :: rest) -> genetic_position (p :: rest) rates p == 0.
Proof.
  intro Hinc. apply genetic_position_left; [assumption |].
  now apply increasing_head_le.
Qed.


Lemma physical_to_genetic_eq (m : RecombinationMap) (xs : list Q) :
  well_formed m ->
  physical_to_genetic m xs =
  Ok (map (Interp.interp_one (get_positions m)
             (map_genetic_positions (get_positions m) (get_rates m))) xs).
Proof.
  intros (Hne & Hlen & Hinc). unfold physical_to_genetic, Broadcast.multiply.
  assert (Hl : List.length (Np.diff (get_positions m))
               = List.length (removelast (get_rates m)))
    by (rewrite diff_length, removelast_length; lia).
  rewrite Hl, Nat.eqb_refl. cbn [Py.bind]. unfold Interp.interp.
  destruct (get_positions m) as [| p rest] eqn:Hpos; [congruence |].
  fold (map_genetic_positions (p :: rest) (get_rates m)).
  rewrite map_genetic_positions_length by (congruence || assumption).
  now rewrite Nat.eqb_refl.
Qed.

End GeneticPositionShape.

(** C8: for a recombination map as msprime builds them (at least one
    breakpoint, as many rates as breakpoints, breakpoints strictly
    increasing), [physical_to_genetic] gives every query its genetic
    position: the rate of each map interval times the length of the part
    of that interval at or before the query, summed over the intervals,
    which is 0 at the first breakpoint; and for a file name with a
    chromosome token the rate array is the 0.0 sentinel followed by the
    first differences of the genetic positions of the inference sites. *)
Theorem physical_to_genetic_positions (m : RecombinationMap) :
  well_formed m ->
  let pos := get_positions m in
  let rates := get_rates m in
  (exists first, physical_to_genetic m [hd 0%Q pos] = Ok [first] /\ (first == 0)%Q) /\
  (forall xs, exists ys,
      physical_to_genetic m xs = Ok ys /\
      Forall2 (fun x y => y == genetic_position pos rates x)%Q xs ys) /\
  (forall (AncestorData TreeSequence : Type) (E : Engine AncestorData TreeSequence)
          (filename chr : string) (sd : SampleData),
      Str.endswith filename ".samples" = true ->
      tsinfer_load E filename = Done sd ->
      Str.search_chr filename = Some chr ->
      get_chromosome_map E chr = Done m ->
      exists distances,
        physical_to_genetic m (Np.mask_select (sites_position sd) (sites_inference sd))
          = Ok distances /\
        setup_sample_file E filename
          = Ok (sd, Np.Fin 0%Q :: map Np.Fin (Np.diff distances),
                Str.drop_last 8 filename, None)).
Proof.
  intros Hwf pos rates. pose proof Hwf as (Hne & Hlen & Hinc).
  assert (Hall : forall xs, exists ys,
      physical_to_genetic m xs = Ok ys /\
      Forall2 (fun x y => y == genetic_position pos rates x)%Q xs ys).
  { intro xs. eexists. split; [apply physical_to_genetic_eq; assumption |].
    induction xs as [| x xs IH]; cbn [map]; constructor; [| exact IH].
    apply interp_one_genetic_position; assumption. }
  split; [| split; [exact Hall |]].
  - destruct (Hall [hd 0%Q pos]) as (ys & Hys & Hf).
    inversion Hf as [| ? y ? ys' Hy Hnil]; subst. inversion Hnil; subst.
    exists y. split; [assumption |]. rewrite Hy.
    subst pos rates. destruct (get_positions m) as [| p rest]; [congruence |].
    cbn [hd]. now apply genetic_position_first.
  - intros AncestorData TreeSequence E filename chr sd Hsuffix Hload Hchr Hmap.
    destruct (Hall (Np.mask_select (sites_position sd) (sites_inference sd)))
      as (ys & Hys & _).
    exists ys. split; [assumption |].
    unfold setup_sample_file. rewrite Hsuffix, Hload, Hchr.
    cbn [negb of_outcome Py.bind]. rewrite Hmap. cbn [of_outcome Py.bind].
    rewrite Hys. reflexivity.
Qed.

Lemma physical_to_genetic_positions_witness :
  well_formed Fixture.hapmap /\
  exists first, physical_to_genetic Fixture.hapmap [0%Q] = Ok [first] /\ (first == 0)%Q.
Proof.
  assert (Hwf : well_formed Fixture.hapmap).
  { split; [discriminate |]. split; [reflexivity |].
    repeat (constructor; [repeat (constructor; [reflexivity |]); constructor |]).
    constructor. }
  split; [exact Hwf |].
  destruct (physical_to_genetic_positions Fixture.hapmap Hwf) as (Hfirst & _ & _).
  exact Hfirst.
Defined.

(** The fixture map at four queries: inside the first interval, on a
    breakpoint, inside the second interval and beyond the last breakpoint. *)
Example physical_to_genetic_hapmap :
  (ys <- physical_to_genetic Fixture.hapmap [500; 1000; 3000; 12000]%Q ;;
   Ok (map Qred ys))
  = Ok [1 # 2; 1; 5; 23 # 2]%Q.
Proof. vm_compute. reflexivity. Qed.

(** The spec's end-to-end scenario: five sites at 0, 100, 500, 2000 and
    9999 of a sequence of length 10000. *)
Example setup_sample_file_scenario :
  (r <- setup_sample_file (Fixture.engine (fun _ => false) Fixture.sd) "sim.samples" ;;
   let '(_, rho, prefix, _) := r in
   Ok (map (fun v => match v with Np.Fin q => Np.Fin (Qred q) | other => other end) rho,
       prefix))
  = Ok ([Np.Fin 0; Np.Fin (1 # 100); Np.Fin (1 # 25); Np.Fin (3 # 20);
         Np.Fin (7999 # 10000)]%Q, "sim"%string).
Proof. vm_compute. reflexivity. Qed.

(** ** The stages of the pipeline *)

Section RunSteps.

Context {AncestorData TreeSequence : Type} (E : Engine AncestorData TreeSequence).

Lemma bindM_lift {A B} (r : result A) (k : A -> M AncestorData TreeSequence B)
    (st : state AncestorData TreeSequence) :
  bindM (lift r) k st = match r with Ok a => k a st | Raise e => (Raise e, st) end.
Proof. unfold bindM, lift. now destruct r. Qed.

Lemma bindM_time {B} (k : Q -> M AncestorData TreeSequence B)
    (st : state AncestorData TreeSequence) :
  bindM (time_process_time E) k st = k (cpu_time E (trace st)) st.
Proof. reflexivity. Qed.

Lemma bindM_external {A B} (c : call AncestorData TreeSequence) (o : outcome A)
    (writes : list string) (k : A -> M AncestorData TreeSequence B)
    (st : state AncestorData TreeSequence) :
  bindM (external c o writes) k st =
  match o with
  | Done a => k a (log st [Invoked c; Returned c] writes)
  | Fails msg =>
      (Raise (ExternalError msg), log st [Invoked c; Failed c (ExternalError msg)] [])
  end.
Proof. unfold bindM, external. now destruct o. Qed.

Lemma bindM_opening {A B} (c : call AncestorData TreeSequence) (file : string)
    (o : outcome A) (k : A -> M AncestorData TreeSequence B)
    (st : state AncestorData TreeSequence) :
  bindM (opening E c file o) k st =
  if file_exists E st file then bindM (external c o []) k st
  else (Raise (FileNotFoundError file),
        log st [Invoked c; Failed c (FileNotFoundError file)] []).
Proof. unfold bindM, opening. now destruct (file_exists E st file). Qed.

Lemma bindM_ret {A B} (a : A) (k : A -> M AncestorData TreeSequence B)
    (st : state AncestorData TreeSequence) :
  bindM (ret a) k st = k a st.
Proof. reflexivity. Qed.

Lemma bindM_try {A B} (body handler : M AncestorData TreeSequence A)
    (k : A -> M AncestorData TreeSequence B) (st : state AncestorData TreeSequence) :
  bindM (try_except_FileNotFoundError body handler) k st =
  match body st with
  | (Raise (FileNotFoundError _), st') => bindM handler k st'
  | (Ok a, st') => k a st'
  | (Raise e, st') => (Raise e, st')
  end.
Proof.
  unfold bindM, try_except_FileNotFoundError.
  destruct (body st) as [[a | []] st']; reflexivity.
Qed.

Lemma ret_apply {A} (a : A) (st : state AncestorData TreeSequence) :
  ret a st = (Ok a, st).
Proof. reflexivity. Qed.

Lemma log_trace (st : state AncestorData TreeSequence) evs files :
  trace (log st evs files) = trace st ++ evs.
Proof. reflexivity. Qed.

Lemma log_created (st : state AncestorData TreeSequence) evs files :
  created (log st evs files) = files ++ created st.
Proof. reflexivity. Qed.

Lemma file_exists_log (st : state AncestorData TreeSequence) evs files file :
  file_exists E (log st evs files) file
  = file_exists E st file || existsb (String.eqb file) files.
Proof.
  unfold file_exists. rewrite log_created, existsb_app.
  destruct (on_disk E file), (existsb (String.eqb file) files),
    (existsb (String.eqb file) (created st)); reflexivity.
Qed.

End RunSteps.

(** One step of [run]: the outermost bind is replaced by what it does. *)
Ltac run_step :=
  first [ rewrite bindM_time | rewrite bindM_ret | rewrite bindM_lift
        | rewrite bindM_external | rewrite bindM_opening | rewrite bindM_try
        | rewrite ret_apply ];
  cbv beta iota zeta; cbn [local].

(** One case distinction of [run]: on the result of a computation of the
    script or on the outcome of an external call. *)
Ltac run_case :=
  match goal with
  | |- context [match prefixes ?E ?p ?a with Ok _ => _ | Raise _ => _ end] =>
      unfold prefixes
  | |- context [match path ?sd with Some _ => _ | None => _ end] =>
      destruct (path sd) eqn:?
  | |- context [if Str.endswith ?s ?x then _ else _] =>
      destruct (Str.endswith s x) eqn:?
  | |- context [if file_exists ?E ?st ?f then _ else _] =>
      destruct (file_exists E st f) eqn:?
  | |- context [match ?r with Ok _ => _ | Raise _ => _ end] => destruct r eqn:?
  | |- context [match ?o with Done _ => _ | Fails _ => _ end] => destruct o eqn:?
  | |- context [let '(_, _) := ?p in _] => is_var p; destruct p
  end;
  cbv beta iota zeta.

Ltac run_cases := unfold run; repeat (run_step || run_case).

(** After the case analysis: the result and the final state are known. *)
Ltac run_done :=
  let H := fresh in
  intro H; injection H as <- <-;
  cbn [fst snd]; rewrite ?log_trace, <- ?app_assoc; cbn [app].

(** The events a run appends to the log, one index at a time. *)
Ltac at_each_index i Hi tac :=
  repeat (lazymatch type of Hi with nth_error (_ :: _) _ = _ => idtac end;
          destruct i as [| i]; cbn [nth_error] in Hi;
          [try discriminate Hi; try tac |]);
  try (destruct i; discriminate Hi).

(** C3: in every run the log of external calls shows ancestor matching
    invoked only after the ancestor builder returned, sample matching only
    after ancestor matching returned, and a call that fails (the load of a
    missing ground-truth file apart, which the script catches) as the last
    event of the run, whose result is that failure. *)
Theorem stages_run_in_order {AncestorData TreeSequence : Type}
    (E : Engine AncestorData TreeSequence) (params : Params)
    (st : state AncestorData TreeSequence) :
  exists evs,
    trace (snd (run E params st)) = trace st ++ evs /\
    (forall i c, nth_error evs i = Some (Invoked c) ->
       stage_of c = Some AncestorsMatched ->
       exists j g, (j < i)%nat /\ nth_error evs j = Some (Returned g) /\
                   stage_of g = Some AncestorsGenerated) /\
    (forall i c, nth_error evs i = Some (Invoked c) ->
       stage_of c = Some SamplesMatched ->
       exists j a, (j < i)%nat /\ nth_error evs j = Some (Returned a) /\
                   stage_of a = Some AncestorsMatched) /\
    (forall i c e, nth_error evs i = Some (Failed c e) ->
       is_load c = false ->
       List.length evs = S i /\ fst (run E params st) = Raise e).
Proof.
  destruct (run E params st) as [res st'] eqn:Hrun. revert Hrun.
  run_cases; run_done.
  all: first [ exists []; split; [now rewrite app_nil_r |]
             | eexists; split; [reflexivity |] ].
  all: split; [| split].
  all: intros i c.
  all: try (intros Hi Hc;
            at_each_index i Hi ltac:(injection Hi as <-; try discriminate Hc);
            first [ exists 1%nat; eexists; split; [lia |]; split; reflexivity
                  | exists 3%nat; eexists; split; [lia |]; split; reflexivity ]).
  all: intros err Hi Hc;
       at_each_index i Hi ltac:(injection Hi as <- <-; try discriminate Hc;
                                split; reflexivity).
Qed.

Section MutationRates.



End MutationRates.



(** ** Runs without a path *)



(** The run of the fixture without a path: the precision is selected, the
    banner printed, and the read of [inf_prefix] raises. *)
Example pathless_run_unbound :
  run (Fixture.engine (fun _ => false) Fixture.sd)
      (pathless (Fixture.params [0; 1 # 1000; 1 # 100]%Q (1 # 10) (1 # 100) None))
      Fixture.start
  = (Raise (UnboundLocalError "inf_prefix"), Fixture.start).
Proof.
  unfold run. rewrite bindM_lift.
  change (select_precision _ _ _) with
    (let params := Fixture.params [0; 1 # 1000; 1 # 100]%Q (1 # 10) (1 # 100) None in
     select_precision (tl (rec_rate params)) (Np.quantile_half (tl (rec_rate params)))
       (pathless params)).
  cbv zeta.
  assert (Hsel : forall rho base p, precision p = None ->
            select_precision rho base (pathless p) = select_precision rho base p)
    by (intros rho base p Hp; unfold select_precision; cbn [precision pathless]; reflexivity).
  rewrite Hsel by reflexivity.
  pose proof select_precision_default_multipliers as Hp. cbv zeta in Hp. rewrite Hp.
  reflexivity.
Qed.


(** ** The ground-truth file *)

Section GroundTruth.
Local Open Scope string_scope.

Lemma append_assoc (a b c : string) : (a ++ b) ++ c = a ++ (b ++ c).
Proof. induction a as [| x a IH]; cbn [append]; [reflexivity | now rewrite IH]. Qed.

Lemma eqb_append_cancel (p a b : string) : (p ++ a =? p ++ b) = (a =? b).
Proof.
  induction p as [| x p IH]; cbn [append]; [reflexivity |].
  cbn [String.eqb]. now rewrite Ascii.eqb_refl.
Qed.

(** The ground-truth file is none of the files a run writes: after the
    common prefix its name goes on with "." and theirs with "_". *)
Lemma truth_file_not_written (prefix rest ext : string) :
  (prefix ++ ".trees" =? (prefix ++ "_ma" ++ rest) ++ ext) = false.
Proof. rewrite append_assoc, eqb_append_cancel. reflexivity. Qed.

Context {AncestorData TreeSequence : Type} (E : Engine AncestorData TreeSequence).

Lemma file_exists_written (st : state AncestorData TreeSequence) evs
    (prefix rest ext : string) :
  file_exists E (log st evs [(prefix ++ "_ma" ++ rest) ++ ext]) (prefix ++ ".trees")
  = file_exists E st (prefix ++ ".trees").
Proof.
  rewrite file_exists_log. cbn [existsb].
  rewrite truth_file_not_written. now rewrite !orb_false_r.
Qed.

Lemma file_exists_unwritten (st : state AncestorData TreeSequence) evs (file : string) :
  file_exists E (log st evs []) file = file_exists E st file.
Proof. rewrite file_exists_log. cbn [existsb]. now rewrite orb_false_r. Qed.

End GroundTruth.


(** The fixture's run with the ground truth on disk succeeds, with the
    distance the fixture engine computes. *)
Example fixture_run :
  let E := Fixture.engine (String.eqb "sim.trees") Fixture.sd in
  let params := Fixture.params [0; 1 # 1000; 1 # 100]%Q (1 # 10) (1 # 100) None in
  exists r st',
    run E params Fixture.start = (Ok r, st') /\
    res_precision r = 8 /\
    ts_path r = "sim_ma0.1_ms0.01_p8.trees"%string /\
    kc r = Some 0%Q /\
    (mean_node_children r == 2)%Q /\ (var_node_children r == 0)%Q /\
    List.length (trace st') = 18%nat.
Proof.
  cbv zeta. unfold run. rewrite bindM_lift.
  pose proof select_precision_default_multipliers as Hp. cbv zeta in Hp. rewrite Hp.
  do 2 eexists. split; [lazy; reflexivity |].
  repeat split; reflexivity.
Qed.


(** * Further properties of the script *)

(** ** File names *)

Section FileNames.
Local Open Scope string_scope.

Lemma substring_split (s : string) : forall m, (m <= String.length s)%nat ->
  substring 0 m s ++ substring m (String.length s - m) s = s.
Proof.
  induction s as [| c s IH]; intros m Hm.
  - destruct m; [reflexivity | simpl in Hm; lia].
  - destruct m as [| m].
    + cbn [substring append String.length Nat.sub]. f_equal.
      specialize (IH 0%nat (Nat.le_0_l _)). rewrite Nat.sub_0_r in IH.
      destruct (String.length s) eqn:Hl.
      * destruct s; [reflexivity | discriminate].
      * destruct s as [| d s']; [discriminate |].
        cbn [substring append] in IH. exact IH.
    + cbn [String.length] in Hm. cbn [substring append String.length Nat.sub].
      f_equal. apply IH. lia.
Qed.

(** A name that ends with a suffix is what is left without it, followed
    by the suffix. *)
Lemma drop_last_suffix (s suffix : string) :
  Str.endswith s suffix = true ->
  Str.drop_last (String.length suffix) s ++ suffix = s.
Proof.
  unfold Str.endswith, Str.drop_last. intro H.
  apply andb_true_iff in H. destruct H as [Hlen Heq].
  apply Nat.leb_le in Hlen. apply String.eqb_eq in Heq.
  set (m := (String.length s - String.length suffix)%nat) in *.
  transitivity (substring 0 m s ++ substring m (String.length s - m) s).
  - f_equal. replace (String.length s - m)%nat with (String.length suffix) by lia.
    now symmetry.
  - apply substring_split. lia.
Qed.

End FileNames.

(** ** [setup_sample_file] as a whole *)

Section SetupSampleFile.

Lemma physical_to_genetic_length (m : RecombinationMap) (xs ys : list Q) :
  physical_to_genetic m xs = Ok ys -> List.length ys = List.length xs.
Proof.
  unfold physical_to_genetic.
  destruct (Broadcast.multiply _ _) as [steps | e]; cbn [Py.bind]; [| discriminate].
  unfold Interp.interp. destruct (get_positions m) as [| p rest]; [discriminate |].
  destruct (Nat.eqb _ _); [| discriminate].
  intro H. injection H as <-. apply length_map.
Qed.

End SetupSampleFile.

(** X1: [setup_sample_file] refuses a name that does not end in ".samples"
    before it loads anything; when it returns, the dataset is the one
    loaded from the file, the returned prefix followed by ".samples" is
    the file name, no tree sequence is returned, and the rate array
    starts with the 0.0 sentinel and has one entry per inference site
    (one entry when there is no such site). *)
Theorem setup_sample_file_result {AncestorData TreeSequence : Type}
    (E : Engine AncestorData TreeSequence) (filename : string) :
  (Str.endswith filename ".samples" = false ->
   setup_sample_file E filename
   = Raise (ValueError "Sample data file must end with '.samples'")) /\
  (forall sd rho prefix ts,
     setup_sample_file E filename = Ok (sd, rho, prefix, ts) ->
     tsinfer_load E filename = Done sd /\
     (prefix ++ ".samples")%string = filename /\
     ts = None /\
     nth 0 rho Np.NaN = Np.Fin 0%Q /\
     List.length rho
       = Nat.max 1 (List.length (Np.mask_select (sites_position sd) (sites_inference sd)))).
Proof.
  split.
  - intro H. unfold setup_sample_file. now rewrite H.
  - intros sd rho prefix ts. unfold setup_sample_file.
    destruct (Str.endswith filename ".samples") eqn:Hs; cbn [negb]; [| discriminate].
    destruct (tsinfer_load E filename) as [sd' | msg]; cbn [of_outcome Py.bind];
      [| discriminate].
    destruct (Str.search_chr filename) as [chr |].
    + destruct (get_chromosome_map E chr) as [m | msg]; cbn [of_outcome Py.bind];
        [| discriminate].
      destruct (physical_to_genetic m _) as [ys | e] eqn:Hys; cbn [Py.bind];
        [| discriminate].
      intro H. injection H as <- <- <- <-.
      apply physical_to_genetic_length in Hys.
      repeat split; [exact (drop_last_suffix filename ".samples" Hs) |].
      cbn [List.length]. rewrite length_map, diff_length, Hys. lia.
    + cbn [Py.bind]. intro H. injection H as <- <- <- <-.
      repeat split; [exact (drop_last_suffix filename ".samples" Hs) |].
      cbn [List.length]. rewrite length_map, diff_length. lia.
Qed.

(** ** Failures of [run] before the first stage *)



Section Multipliers.

Lemma log10_Qeq (q q' : Q) : (q == q')%Q -> Np.log10 (Np.Fin q) = Np.log10 (Np.Fin q').
Proof.
  intro H. unfold Np.log10. rewrite (Qeq_eqR _ _ H).
  assert (Hc : (0 ?= q)%Q = (0 ?= q')%Q) by (now rewrite H).
  now rewrite Hc.
Qed.

(** The logarithm of the product with the base rate sees a multiplier only
    through its value. *)
Lemma log10_mul_Qeq (a a' : Q) (base : Np.float Q) : (a == a')%Q ->
  Np.log10 (Np.mul (Np.Fin a) base) = Np.log10 (Np.mul (Np.Fin a') base).
Proof.
  intro H. assert (Hc : (0 ?= a)%Q = (0 ?= a')%Q) by (now rewrite H).
  destruct base as [b | | |]; cbn [Np.mul].
  - apply log10_Qeq. now rewrite H.
  - now rewrite Hc.
  - now rewrite Hc.
  - reflexivity.
Qed.

End Multipliers.

(** X3: with no override and positive rates, a mutation multiplier that is
    zero or negative stops [run] at the precision selection, before any
    engine call: the product under the second logarithm is then zero
    (OverflowError of the conversion of infinity) or negative (ValueError
    of the conversion of nan). *)
Theorem nonpositive_multiplier_fails {AncestorData TreeSequence : Type}
    (E : Engine AncestorData TreeSequence) (params : Params)
    (st : state AncestorData TreeSequence) (r : Q) (t : list Q) :
  precision params = None ->
  tl (rec_rate params) = r :: t ->
  Forall (fun x => 0 < x)%Q (r :: t) ->
  (ma_mut_rate params <= 0)%Q \/ (ms_mut_rate params <= 0)%Q ->
  let smallest := Qmin (ma_mut_rate params) (ms_mut_rate params) in
  exists e,
    run E params st = (Raise e, st) /\
    ((smallest == 0)%Q /\
       e = OverflowError "cannot convert float infinity to integer" \/
     (smallest < 0)%Q /\
       e = ValueError "cannot convert float NaN to integer").
Proof.
  intros Hp Hrho Hpos Hmult smallest.
  destruct (quantile_half_pos (r :: t)) as (m & Hq & Hm); [discriminate | assumption |].
  set (a := Py.min3 1 (ma_mut_rate params) (ms_mut_rate params)).
  assert (Ha : (a == smallest)%Q).
  { unfold a, smallest. rewrite min3_Qmin.
    rewrite <- Q.min_assoc. apply Q.min_r.
    destruct Hmult as [H | H].
    - eapply Qle_trans; [apply Q.le_min_l |]. lra.
    - eapply Qle_trans; [apply Q.le_min_r |]. lra. }
  assert (Hle : (smallest <= 0)%Q).
  { unfold smallest. destruct Hmult as [H | H].
    - eapply Qle_trans; [apply Q.le_min_l | exact H].
    - eapply Qle_trans; [apply Q.le_min_r | exact H]. }
  assert (Hsel : forall v, Np.log10 (Np.Fin (a * m)%Q) = v ->
            select_precision (r :: t) (Np.Fin m) params
            = (av_min <- Np.int (Np.ceil (Np.neg v)) ;;
               Ok (Z.max (Np.ceilZ (- Np.log10R (Q2R (fold_left Qmin t r)))) av_min + 3))).
  { intros v <-. unfold select_precision. rewrite Hp.
    inversion Hpos as [| ? ? Hr Ht]; subst.
    cbn [map Np.min]. rewrite (log10_fin_pos r Hr), (min_log10_positive t r Hr Ht).
    cbn [Py.bind Np.neg]. rewrite int_ceil_fin. reflexivity. }
  destruct (Qlt_le_dec smallest 0) as [Hneg | Hzero].
  - exists (ValueError "cannot convert float NaN to integer"). split; [| right; now split].
    apply run_select_precision_raises. rewrite Hrho, Hq.
    rewrite (Hsel Np.NaN); [reflexivity |].
    apply log10_fin_neg. rewrite Ha.
    setoid_replace 0%Q with (0 * m)%Q by ring. apply Qmult_lt_compat_r; assumption.
  - exists (OverflowError "cannot convert float infinity to integer").
    split; [| left; split; [lra | reflexivity]].
    apply run_select_precision_raises. rewrite Hrho, Hq.
    rewrite (Hsel Np.NInf); [reflexivity |].
    apply log10_fin_zero. rewrite Ha. setoid_replace smallest with 0%Q by lra. ring.
Qed.

Lemma nonpositive_multiplier_fails_witness :
  let params := Fixture.params [0; 1 # 1000; 1 # 100]%Q (-1 # 10) (1 # 100) None in
  exists e,
    run (Fixture.engine (fun _ => false) Fixture.sd) params Fixture.start
      = (Raise e, Fixture.start) /\
    ((Qmin (-1 # 10) (1 # 100) == 0)%Q /\
       e = OverflowError "cannot convert float infinity to integer" \/
     (Qmin (-1 # 10) (1 # 100) < 0)%Q /\
       e = ValueError "cannot convert float NaN to integer").
Proof.
  apply (nonpositive_multiplier_fails (Fixture.engine (fun _ => false) Fixture.sd)
           (Fixture.params [0; 1 # 1000; 1 # 100]%Q (-1 # 10) (1 # 100) None)
           Fixture.start (1 # 1000) [1 # 100]%Q).
  - reflexivity.
  - reflexivity.
  - repeat constructor.
  - left. discriminate.
Defined.

(** ** What the selected precision means *)

Section PrecisionMeaning.
Local Open Scope R_scope.



End PrecisionMeaning.



(** X5: the precision selection sees the two multipliers only through
    [min(1, ma, ms)]: parameters that agree on it (and on the override)
    select the same precision, or raise the same error, for the same
    rates.  So the multipliers can be swapped, and a multiplier above the
    other one, or above 1, has no effect. *)
Theorem selected_precision_smallest_multiplier (params params' : Params)
    (rho : list Q) (base : Np.float Q) :
  precision params = precision params' ->
  (Qmin (Qmin 1 (ma_mut_rate params)) (ms_mut_rate params)
   == Qmin (Qmin 1 (ma_mut_rate params')) (ms_mut_rate params'))%Q ->
  select_precision rho base params = select_precision rho base params'.
Proof.
  intros Hp Hmin. unfold select_precision. rewrite <- Hp.
  destruct (precision params); [reflexivity |].
  rewrite (log10_mul_Qeq (Py.min3 1 (ma_mut_rate params) (ms_mut_rate params))
             (Py.min3 1 (ma_mut_rate params') (ms_mut_rate params')) base);
    [reflexivity |].
  now rewrite !min3_Qmin.
Qed.

Lemma selected_precision_smallest_multiplier_witness :
  let rho := [1 # 1000; 1 # 100]%Q in
  select_precision rho (Np.quantile_half rho)
    (Fixture.params (0%Q :: rho) (1 # 10) (1 # 100) None)
  = select_precision rho (Np.quantile_half rho)
      (Fixture.params (0%Q :: rho) (1 # 100) 5 None).
Proof.
  apply (selected_precision_smallest_multiplier
           (Fixture.params [0; 1 # 1000; 1 # 100]%Q (1 # 10) (1 # 100) None)
           (Fixture.params [0; 1 # 1000; 1 # 100]%Q (1 # 100) 5 None)).
  - reflexivity.
  - reflexivity.
Defined.

(** ** What a run returns, writes and calls *)

(** X6: the record of a successful run: the precision is the selected one
    (the override when there is one), the multipliers are the
    parameters', the edge, mutation and tree counts are read from the
    inferred tree sequence as match_samples returned it, the two
    statistics from its simplification, the size is that of the ".trees"
    file, and the CPU time runs from before the first stage to the return
    of match_samples, eight log events later: the final dump, the
    simplification and the comparison are not timed. *)
Theorem successful_run_record {AncestorData TreeSequence : Type}
    (E : Engine AncestorData TreeSequence) (params : Params)
    (st st' : state AncestorData TreeSequence) (r : Results) :
  run E params st = (Ok r, st') ->
  let rho := tl (rec_rate params) in
  select_precision rho (Np.quantile_half rho) params = Ok (res_precision r) /\
  (forall p, precision params = Some p -> res_precision r = p) /\
  ma_mut r = ma_mut_rate params /\ ms_mut r = ms_mut_rate params /\
  exists inf_prefix ts simplified timed,
    ts_path r = (inf_prefix ++ ".trees")%string /\
    inferred_by E params (res_precision r) inf_prefix ts /\
    simplify E ts = Done simplified /\
    edges r = ts_num_edges E ts /\
    muts r = ts_num_mutations E ts /\
    num_trees r = ts_num_trees E ts /\
    children_stats (trees E simplified)
      = Ok (mean_node_children r, var_node_children r) /\
    ts_size r = file_size E (ts_path r) /\
    process_time r = (cpu_time E (trace st ++ timed) - cpu_time E (trace st))%Q /\
    List.length timed = 8%nat /\
    exists anc_ts mutation_rate,
      last timed (Invoked (Load ""))
      = Returned (MatchSamples (sample_data params) anc_ts (num_threads params)
                    (res_precision r) (rec_rate params) mutation_rate).
Proof.
  run_cases; intro H; try discriminate H; injection H as <- <-.
  all: cbv zeta;
       cbn [res_precision ma_mut ms_mut ts_path edges muts num_trees
            mean_node_children var_node_children ts_size process_time].
  all: split; [reflexivity |].
  all: split;
       [ intros p Hp;
         match goal with
         | Hs : select_precision _ _ _ = Ok _ |- _ =>
             unfold select_precision in Hs; rewrite Hp in Hs; now injection Hs
         end |].
  all: split; [reflexivity |]; split; [reflexivity |].
  all: do 4 eexists.
  all: split; [reflexivity |].
  all: split; [do 2 eexists; repeat split; eassumption |].
  all: split; [eassumption |].
  all: do 3 (split; [reflexivity |]).
  all: split; [assumption |]; split; [reflexivity |].
  all: rewrite ?log_trace, <- ?app_assoc; cbn [app].
  all: split; [reflexivity |]; split; [reflexivity |].
  all: do 2 eexists; reflexivity.
Qed.

Lemma successful_run_record_witness :
  let E := Fixture.engine (String.eqb "sim.trees") Fixture.sd in
  let params := Fixture.params [0; 1 # 1000; 1 # 100]%Q (1 # 10) (1 # 100) None in
  exists r : Results,
    select_precision (tl (rec_rate params)) (Np.quantile_half (tl (rec_rate params)))
      params = Ok (res_precision r) /\
    ma_mut r = ma_mut_rate params.
Proof.
  intros E params.
  destruct fixture_run as (r & st' & Hrun & _).
  exists r.
  destruct (successful_run_record E params Fixture.start st' r Hrun)
    as (Hsel & _ & Hma & _).
  split; [exact Hsel | exact Hma].
Defined.

Section WrittenFiles.
Local Open Scope string_scope.

(** No artefact name is the base name followed by a dot and more. *)
Lemma dotted_not_written (prefix tail rest ext : string) :
  prefix ++ String "." tail <> (prefix ++ "_ma" ++ rest) ++ ext.
Proof.
  apply String.eqb_neq. rewrite append_assoc, eqb_append_cancel. reflexivity.
Qed.

End WrittenFiles.

(** X7: the files a run writes.  Whatever the outcome, the files created
    are artefacts of this run: the base name of the dataset, "_ma" and
    the rest of the parameter suffix, and one of ".ancestors", ".atrees"
    and ".trees"; a run that succeeds has written exactly these three;
    and no run writes the dataset itself or the ground-truth file. *)
Theorem files_written {AncestorData TreeSequence : Type}
    (E : Engine AncestorData TreeSequence) (params : Params)
    (st : state AncestorData TreeSequence) :
  exists new,
    created (snd (run E params st)) = new ++ created st /\
    (forall f, In f new ->
       exists file rest ext,
         path (sample_data params) = Some file /\
         Str.endswith file ".samples" = true /\
         f = ((Str.drop_last (String.length ".samples") file ++ "_ma" ++ rest) ++ ext)%string /\
         (ext = ".ancestors" \/ ext = ".atrees" \/ ext = ".trees")%string) /\
    (forall r, fst (run E params st) = Ok r ->
       exists inf_prefix,
         ts_path r = (inf_prefix ++ ".trees")%string /\
         new = [inf_prefix ++ ".trees"; inf_prefix ++ ".atrees";
                inf_prefix ++ ".ancestors"]%string) /\
    (forall file, path (sample_data params) = Some file ->
       ~ In file new /\
       ~ In (Str.drop_last (String.length ".samples") file ++ ".trees")%string new).
Proof.
  assert (Hgen : forall (stored : option string) (new : list string),
    (forall f, In f new ->
       exists file rest ext,
         stored = Some file /\
         Str.endswith file ".samples" = true /\
         f = ((Str.drop_last (String.length ".samples") file ++ "_ma" ++ rest) ++ ext)%string /\
         (ext = ".ancestors" \/ ext = ".atrees" \/ ext = ".trees")%string) ->
    forall file, stored = Some file ->
       ~ In file new /\
       ~ In (Str.drop_last (String.length ".samples") file ++ ".trees")%string new).
  { intros stored new Hnew file Hpath. split; intro Hin.
    - destruct (Hnew _ Hin) as (file' & rest & ext & Hp & Hs & Hf & _).
      rewrite Hpath in Hp. injection Hp as <-.
      pose proof (drop_last_suffix file ".samples" Hs) as Hround.
      set (prefix := Str.drop_last (String.length ".samples") file) in *.
      rewrite <- Hround in Hf at 1.
      exact (dotted_not_written prefix "samples" rest ext Hf).
    - destruct (Hnew _ Hin) as (file' & rest & ext & Hp & Hs & Hf & _).
      rewrite Hpath in Hp. injection Hp as <-.
      exact (dotted_not_written _ "trees" rest ext Hf). }
  destruct (run E params st) as [res st'] eqn:Hrun. revert Hrun.
  run_cases; run_done.
  all: rewrite ?log_created, ?app_assoc.
  all: first [ exists []; split; [reflexivity |]
             | eexists; split; [reflexivity |] ]; cbn [app].
  all: match goal with
       | |- ?A /\ ?B /\ ?C =>
           assert (Hnew : A);
           [| split; [exact Hnew |]; split; [| exact (Hgen _ _ Hnew)]]
       end.
  all: try (intros f Hin; cbn [In] in Hin;
            repeat (destruct Hin as [<- | Hin];
                    [do 3 eexists; split; [reflexivity |]; split; [assumption |];
                     split; [reflexivity | auto] |]);
            contradiction).
  all: intros r Hr; try discriminate Hr; injection Hr as <-.
  all: eexists; split; reflexivity.
Qed.

(** X8: no stage is repeated.  In every run each of the three stages is
    invoked at most once, a later stage never more often than the stage
    before it, and a run that succeeds has invoked each exactly once. *)
Theorem stages_invoked_once {AncestorData TreeSequence : Type}
    (E : Engine AncestorData TreeSequence) (params : Params)
    (st : state AncestorData TreeSequence) :
  exists evs,
    trace (snd (run E params st)) = trace st ++ evs /\
    (invocations SamplesMatched evs <= invocations AncestorsMatched evs)%nat /\
    (invocations AncestorsMatched evs <= invocations AncestorsGenerated evs)%nat /\
    (invocations AncestorsGenerated evs <= 1)%nat /\
    (forall r, fst (run E params st) = Ok r ->
       forall s, invocations s evs = 1%nat).
Proof.
  destruct (run E params st) as [res st'] eqn:Hrun. revert Hrun.
  run_cases; run_done.
  all: first [ exists []; split; [now rewrite app_nil_r |]
             | eexists; split; [reflexivity |] ].
  all: unfold invocations; cbn [filter stage_of same_stage List.length].
  all: repeat (split; [lia |]).
  all: intros r Hr; try discriminate Hr.
  all: intros [| |]; reflexivity.
Qed.

(** X9: only a missing ground-truth file is forgiven.  When the file
    exists as the run starts but tskit cannot load it, the run does not
    succeed: no result record is returned. *)
Theorem unreadable_ground_truth {AncestorData TreeSequence : Type}
    (E : Engine AncestorData TreeSequence) (params : Params)
    (st : state AncestorData TreeSequence) (file msg : string) :
  path (sample_data params) = Some file ->
  let truth_file := (Str.drop_last (String.length ".samples") file ++ ".trees")%string in
  file_exists E st truth_file = true ->
  load E truth_file = Fails msg ->
  forall r, fst (run E params st) <> Ok r.
Proof.
  intros Hpath truth_file Hexists Hload r. subst truth_file.
  destruct (run E params st) as [res st'] eqn:Hrun. revert Hrun.
  run_cases; run_done; try discriminate.
  all: injection Hpath as ->.
  all: repeat match goal with
       | H : context [file_exists _ (log _ _ _) _] |- _ =>
           first [ rewrite file_exists_written in H
                 | rewrite file_exists_unwritten in H ]
       end.
  all: congruence.
Qed.

Lemma unreadable_ground_truth_witness :
  let E := {| generate_ancestors := fun _ _ _ => Done tt;
              match_ancestors := fun _ _ _ _ _ _ => Done [Fixture.binary_tree];
              match_samples := fun _ ts _ _ _ _ => Done ts;
              dump := fun _ _ => Done tt;
              simplify := fun ts => Done ts;
              trees := fun ts => ts;
              kc_distance := fun _ _ => Done 0%Q;
              load := fun _ => Fails "not a tree sequence file";
              ts_num_edges := fun _ => 6;
              ts_num_mutations := fun _ => 5;
              ts_num_trees := fun ts => Z.of_nat (List.length ts);
              on_disk := String.eqb "sim.trees";
              file_size := fun _ => 4096;
              cpu_time := fun events => inject_Z (Z.of_nat (List.length events));
              str_float := fun _ => "0.1"%string;
              tsinfer_load := fun _ => Done Fixture.sd;
              get_chromosome_map := fun _ => Done Fixture.hapmap |} in
  let params := Fixture.params [0; 1 # 1000; 1 # 100]%Q (1 # 10) (1 # 100) None in
  file_exists E Fixture.start "sim.trees" = true /\
  forall r, fst (run E params Fixture.start) <> Ok r.
Proof.
  intros E params. split; [reflexivity |].
  apply (unreadable_ground_truth E params Fixture.start "sim.samples"
           "not a tree sequence file").
  - reflexivity.
  - reflexivity.
  - reflexivity.
Defined.

(** ** [physical_to_genetic] beyond well-formed maps and inside them *)

(** X10: [physical_to_genetic] returns one genetic position per query
    whenever it returns, which takes a map with at least one breakpoint;
    its only failures are numpy's ValueErrors for arrays that do not fit
    together, and a map without breakpoints always gives one. *)
Theorem physical_to_genetic_shape (m : RecombinationMap) (xs : list Q) :
  (forall ys, physical_to_genetic m xs = Ok ys ->
     List.length ys = List.length xs /\ get_positions m <> []) /\
  (forall e, physical_to_genetic m xs = Raise e -> exists msg, e = ValueError msg) /\
  (get_positions m = [] -> exists msg, physical_to_genetic m xs = Raise (ValueError msg)).
Proof.
  assert (Hfail : forall e, physical_to_genetic m xs = Raise e ->
                            exists msg, e = ValueError msg).
  { intro e. unfold physical_to_genetic, Broadcast.multiply.
    destruct (Nat.eqb _ _); cbn [Py.bind].
    - unfold Interp.interp. destruct (get_positions m); [intro H; injection H as <-; eauto |].
      destruct (Nat.eqb _ _); [discriminate | intro H; injection H as <-; eauto].
    - destruct (Np.diff (get_positions m)) as [| a [| a' ta]];
        destruct (removelast (get_rates m)) as [| b [| b' tb]]; cbn [Py.bind];
        try (intro H; injection H as <-; eauto);
        unfold Interp.interp; destruct (get_positions m);
        try (intro H; injection H as <-; eauto);
        destruct (Nat.eqb _ _); try discriminate;
        intro H; injection H as <-; eauto. }
  split; [| split; [exact Hfail |]].
  - intros ys H. split; [now apply physical_to_genetic_length in H |].
    intro Hempty. unfold physical_to_genetic in H. rewrite Hempty in H.
    destruct (Broadcast.multiply _ _); cbn [Py.bind Interp.interp] in H; discriminate.
  - intro Hempty. destruct (physical_to_genetic m xs) as [ys | e] eqn:H.
    + exfalso. unfold physical_to_genetic in H. rewrite Hempty in H.
      destruct (Broadcast.multiply _ _); cbn [Py.bind Interp.interp] in H; discriminate.
    + destruct (Hfail e eq_refl) as [msg ->]. eauto.
Qed.

Section GeneticOrder.
Local Open Scope Q_scope.

(** With rates that are not negative the genetic position grows with the
    physical position. *)
Lemma genetic_position_mono (pos : list Q) : forall rates x y,
  Forall (fun r => 0 <= r) rates -> x <= y ->
  genetic_position pos rates x <= genetic_position pos rates y.
Proof.
  induction pos as [| p0 [| p1 rest] IH]; intros rates x y Hr Hxy;
    try apply Qle_refl.
  destruct rates as [| r0 rates']; [apply Qle_refl |].
  inversion Hr as [| ? ? Hr0 Hr']; subst.
  change (genetic_position (p0 :: p1 :: rest) (r0 :: rates') ?z)
    with ((Qmin (Qmax z p0) p1 - p0) * r0 + genetic_position (p1 :: rest) rates' z).
  apply Qplus_le_compat; [| now apply IH].
  apply Qmult_le_compat_r; [| assumption].
  apply Qplus_le_compat; [| apply Qle_refl].
  apply Q.min_le_compat_r. now apply Q.max_le_compat_r.
Qed.

Lemma genetic_position_nonneg (pos : list Q) : forall rates x,
  increasing pos -> Forall (fun r => 0 <= r) rates ->
  0 <= genetic_position pos rates x.
Proof.
  induction pos as [| p0 [| p1 rest] IH]; intros rates x Hinc Hr;
    try apply Qle_refl.
  destruct rates as [| r0 rates']; [apply Qle_refl |].
  inversion Hr as [| ? ? Hr0 Hr']; subst.
  inversion Hinc as [| ? ? Hlt Hinc']; subst.
  assert (H01 : p0 < p1) by (inversion Hlt; assumption).
  change (genetic_position (p0 :: p1 :: rest) (r0 :: rates') x)
    with ((Qmin (Qmax x p0) p1 - p0) * r0 + genetic_position (p1 :: rest) rates' x).
  pose proof (IH rates' x Hinc' Hr') as Hrest.
  assert (Hterm : 0 <= (Qmin (Qmax x p0) p1 - p0) * r0).
  { apply Qmult_le_0_compat; [| assumption].
    assert (p0 <= Qmin (Qmax x p0) p1)
      by (apply Q.min_glb; [apply Q.le_max_r | lra]).
    lra. }
  lra.
Qed.

(** At or beyond every breakpoint the genetic position no longer depends
    on the query. *)
Lemma genetic_position_right (pos : list Q) : forall rates x y,
  (forall p, In p pos -> p <= x) -> (forall p, In p pos -> p <= y) ->
  genetic_position pos rates x == genetic_position pos rates y.
Proof.
  induction pos as [| p0 [| p1 rest] IH]; intros rates x y Hx Hy; try reflexivity.
  destruct rates as [| r0 rates']; [reflexivity |].
  change (genetic_position (p0 :: p1 :: rest) (r0 :: rates') ?z)
    with ((Qmin (Qmax z p0) p1 - p0) * r0 + genetic_position (p1 :: rest) rates' z).
  rewrite (IH rates' x y) by (intros p Hp; (apply Hx || apply Hy); now right).
  assert (Hx0 : p0 <= x) by (apply Hx; now left).
  assert (Hx1 : p1 <= x) by (apply Hx; right; now left).
  assert (Hy0 : p0 <= y) by (apply Hy; now left).
  assert (Hy1 : p1 <= y) by (apply Hy; right; now left).
  rewrite (Q.max_l x p0), (Q.max_l y p0) by assumption.
  rewrite (Q.min_r x p1), (Q.min_r y p1) by assumption.
  reflexivity.
Qed.

Lemma diff_map_nonneg (f : Q -> Q) (xs : list Q) :
  (forall x y, x <= y -> f x <= f y) -> sorted xs ->
  Forall (fun d => 0 <= d) (Np.diff (map f xs)).
Proof.
  intros Hf. induction xs as [| x [| y t] IH]; intro Hs; [constructor | constructor |].
  inversion Hs as [| ? ? Hx Hs']; subst.
  change (Np.diff (map f (x :: y :: t)))
    with ((f y - f x) :: Np.diff (map f (y :: t))).
  constructor; [| now apply IH].
  assert (Hxy : x <= y) by (inversion Hx; assumption).
  specialize (Hf x y Hxy). lra.
Qed.

Lemma diff_Qeq (a b : list Q) : Forall2 Qeq a b -> Forall2 Qeq (Np.diff a) (Np.diff b).
Proof.
  induction 1 as [| x x' t t' Hx Ht IH]; [constructor |].
  destruct Ht as [| y y' t t' Hy Ht]; [constructor |].
  cbn [Np.diff] in *. constructor; [now rewrite Hx, Hy | exact IH].
Qed.

Lemma converted_positions (m : RecombinationMap) (xs : list Q) :
  well_formed m ->
  Forall2 Qeq
    (map (Interp.interp_one (get_positions m)
            (map_genetic_positions (get_positions m) (get_rates m))) xs)
    (map (genetic_position (get_positions m) (get_rates m)) xs).
Proof.
  intros (Hne & Hlen & Hinc).
  induction xs as [| x xs IH]; cbn [map]; constructor; [| exact IH].
  now apply interp_one_genetic_position.
Qed.

End GeneticOrder.

Section ForallQeq.
Local Open Scope Q_scope.

Lemma Forall_Qeq (P : Q -> Prop) (a b : list Q) :
  (forall x y, x == y -> P x -> P y) -> Forall2 Qeq a b -> Forall P a -> Forall P b.
Proof.
  intros HP. induction 1 as [| x y t t' Hxy Ht IH]; intro H; [constructor |].
  inversion H; subst. constructor; [eapply HP; eauto | auto].
Qed.

Lemma Forall2_Qeq_sym (a b : list Q) : Forall2 Qeq a b -> Forall2 Qeq b a.
Proof. induction 1; constructor; [now symmetry | assumption]. Qed.

End ForallQeq.

(** X11: the rate array of the map branch is not negative.  For a file
    name with a chromosome token, a recombination map as msprime builds
    them whose rates are not negative, and increasing positions of the
    inference sites, [setup_sample_file] returns a rate array whose
    entries are all finite and at least 0. *)
Theorem genetic_rate_array_nonnegative {AncestorData TreeSequence : Type}
    (E : Engine AncestorData TreeSequence) (filename chr : string)
    (sd : SampleData) (m : RecombinationMap) :
  Str.endswith filename ".samples" = true ->
  tsinfer_load E filename = Done sd ->
  Str.search_chr filename = Some chr ->
  get_chromosome_map E chr = Done m ->
  well_formed m ->
  Forall (fun r => 0 <= r)%Q (get_rates m) ->
  sorted (Np.mask_select (sites_position sd) (sites_inference sd)) ->
  exists rho,
    setup_sample_file E filename = Ok (sd, rho, Str.drop_last 8 filename, None) /\
    Forall (fun v => exists q, v = Np.Fin q /\ (0 <= q)%Q) rho.
Proof.
  intros Hsuffix Hload Hchr Hmap Hwf Hrates Hsorted.
  unfold setup_sample_file. rewrite Hsuffix, Hload, Hchr.
  cbn [negb of_outcome Py.bind]. rewrite Hmap. cbn [of_outcome Py.bind].
  rewrite (physical_to_genetic_eq m _ Hwf). cbn [Py.bind].
  eexists. split; [reflexivity |].
  constructor; [exists 0%Q; split; [reflexivity | apply Qle_refl] |].
  apply Forall_map.
  assert (Hd : Forall (fun d => 0 <= d)%Q
                 (Np.diff (map (Interp.interp_one (get_positions m)
                                  (map_genetic_positions (get_positions m) (get_rates m)))
                             (Np.mask_select (sites_position sd) (sites_inference sd))))).
  { eapply Forall_Qeq;
      [| apply Forall2_Qeq_sym, diff_Qeq, converted_positions; exact Hwf |].
    - intros x y Hxy Hx. now rewrite <- Hxy.
    - apply diff_map_nonneg; [| exact Hsorted].
      intros x y Hxy. now apply genetic_position_mono. }
  eapply Forall_impl; [| exact Hd]. intros d Hd0. exists d. now split.
Qed.

Lemma hapmap_well_formed : well_formed Fixture.hapmap.
Proof.
  split; [discriminate |]. split; [reflexivity |].
  repeat (constructor; [repeat (constructor; [reflexivity |]); constructor |]).
  constructor.
Qed.

Lemma genetic_rate_array_nonnegative_witness :
  let sd := {| path := Some "chr20.samples"%string;
               sites_position := [0; 100; 500; 2000; 9999]%Q;
               sites_inference := [true; true; true; true; true];
               sequence_length := 10000%Q;
               genotypes := [] |} in
  exists rho,
    setup_sample_file (Fixture.engine (fun _ => false) Fixture.sd) "chr20.samples"
      = Ok (sd, rho, Str.drop_last 8 "chr20.samples", None) /\
    Forall (fun v => exists q, v = Np.Fin q /\ (0 <= q)%Q) rho.
Proof.
  intro sd.
  apply (genetic_rate_array_nonnegative (Fixture.engine (fun _ => false) Fixture.sd)
           "chr20.samples" "chr20" sd Fixture.hapmap).
  - reflexivity.
  - reflexivity.
  - reflexivity.
  - reflexivity.
  - exact hapmap_well_formed.
  - repeat (constructor; [discriminate |]). constructor.
  - repeat (constructor; [repeat (constructor; [discriminate |]); constructor |]).
    constructor.
Defined.

(** X12: outside the map the conversion is constant.  For a map as
    msprime builds them, every query at or before the first breakpoint
    converts to 0 and all queries at or beyond the last breakpoint convert
    to one and the same genetic position, so that two sites beyond the end
    of the map are a genetic distance of 0 apart. *)
Theorem physical_to_genetic_outside (m : RecombinationMap) (x y : Q) :
  well_formed m ->
  ((forall p, In p (get_positions m) -> x <= p)%Q ->
   exists a, physical_to_genetic m [x] = Ok [a] /\ (a == 0)%Q) /\
  ((forall p, In p (get_positions m) -> p <= x /\ p <= y)%Q ->
   exists a b, physical_to_genetic m [x; y] = Ok [a; b] /\ (b - a == 0)%Q).
Proof.
  intro Hwf. pose proof Hwf as (Hne & Hlen & Hinc). split.
  - intro Hx. rewrite (physical_to_genetic_eq m _ Hwf). cbn [map].
    eexists. split; [reflexivity |].
    rewrite interp_one_genetic_position by assumption.
    now apply genetic_position_left.
  - intro Hxy. rewrite (physical_to_genetic_eq m _ Hwf). cbn [map].
    do 2 eexists. split; [reflexivity |].
    rewrite !interp_one_genetic_position by assumption.
    rewrite (genetic_position_right (get_positions m) (get_rates m) y x).
    + ring.
    + intros p Hp. apply (Hxy p Hp).
    + intros p Hp. apply (Hxy p Hp).
Qed.

Lemma physical_to_genetic_outside_witness :
  exists a b, physical_to_genetic Fixture.hapmap [12000; 15000]%Q = Ok [a; b] /\
              (b - a == 0)%Q.
Proof.
  destruct (physical_to_genetic_outside Fixture.hapmap 12000 15000 hapmap_well_formed)
    as [_ Hright].
  apply Hright. intros p Hp. cbn [In Fixture.hapmap get_positions] in Hp.
  repeat (destruct Hp as [<- | Hp]; [split; discriminate |]). contradiction.
Defined.




(** ** The statistics in general *)

Section Statistics.
Local Open Scope Q_scope.







End Statistics.

Section StatisticsDefined.
Local Open Scope Q_scope.

Lemma count_node_total (t : Tree) (acc : Q * Q * Q) (n : nat) :
  0 < span t ->
  total acc <= total (count_node t acc n) /\
  ((0 < num_children t n)%nat -> total acc < total (count_node t acc n)).
Proof.
  intro Hs. destruct acc as [[s sq] tot]. unfold count_node.
  destruct (0 <? num_children t n)%nat eqn:Hc; cbn [total snd].
  - split; [| intros _]; lra.
  - apply Nat.ltb_ge in Hc. split; [lra | intro; lia].
Qed.

Lemma count_tree_total (t : Tree) : 0 < span t ->
  forall acc, total acc <= total (count_tree acc t) /\
              (has_internal_node t -> total acc < total (count_tree acc t)).
Proof.
  intro Hs. unfold count_tree, has_internal_node.
  induction (nodes t) as [| n ns IH]; intro acc; cbn [fold_left].
  - split; [lra |]. intro H. inversion H.
  - destruct (count_node_total t acc n Hs) as [Hle Hlt].
    destruct (IH (count_node t acc n)) as [Hle' Hlt'].
    split; [lra |]. intro H. inversion H as [? ? Hhd | ? ? Htl]; subst.
    + specialize (Hlt Hhd). lra.
    + specialize (Hlt' Htl). lra.
Qed.

Lemma count_trees_total (trees : list Tree) :
  Forall (fun t => 0 < span t) trees ->
  forall acc, total acc <= total (fold_left count_tree trees acc) /\
              (Exists has_internal_node trees ->
               total acc < total (fold_left count_tree trees acc)).
Proof.
  induction 1 as [| t ts Ht Hts IH]; intro acc; cbn [fold_left].
  - split; [lra |]. intro H. inversion H.
  - destruct (count_tree_total t Ht acc) as [Hle Hlt].
    destruct (IH (count_tree acc t)) as [Hle' Hlt'].
    split; [lra |]. intro H. inversion H as [? ? Hhd | ? ? Htl]; subst.
    + specialize (Hlt Hhd). lra.
    + specialize (Hlt' Htl). lra.
Qed.

Lemma count_trees_leaves (trees : list Tree) :
  ~ Exists has_internal_node trees ->
  forall acc, fold_left count_tree trees acc = acc.
Proof.
  induction trees as [| t ts IH]; intros Hno acc; cbn [fold_left]; [reflexivity |].
  assert (Ht : count_tree acc t = acc).
  { assert (Hn : ~ has_internal_node t) by (intro; apply Hno; now left).
    unfold count_tree, has_internal_node in *.
    induction (nodes t) as [| n ns IHn]; cbn [fold_left]; [reflexivity |].
    assert (Hc : count_node t acc n = acc).
    { destruct acc as [[s sq] tot]. unfold count_node.
      destruct (0 <? num_children t n)%nat eqn:Hc; [| reflexivity].
      apply Nat.ltb_lt in Hc. exfalso. apply Hn. now left. }
    rewrite Hc. apply IHn. intro H. apply Hn. now right. }
  rewrite Ht. apply IH. intro H. apply Hno. now right.
Qed.

End StatisticsDefined.

(** X14: the statistics loop divides by the span of the internal nodes it
    has seen: over trees of positive span it returns a mean and a variance
    when some tree has a node with children, and raises ZeroDivisionError
    when none has. *)
Theorem children_stats_defined (trees : list Tree) :
  Forall (fun t => (0 < span t)%Q) trees ->
  (Exists has_internal_node trees ->
   exists mean var, children_stats trees = Ok (mean, var)) /\
  (~ Exists has_internal_node trees ->
   children_stats trees = Raise ZeroDivisionError).
Proof.
  intro Hs. split; intro H.
  - destruct (count_trees_total trees Hs (0, 0, 0)%Q) as [_ Hpos].
    specialize (Hpos H). unfold children_stats.
    destruct (fold_left count_tree trees (0, 0, 0)%Q) as [[s sq] tot].
    cbn [total snd] in Hpos. unfold Py.div.
    destruct (Qeq_bool tot 0) eqn:Hz.
    + apply Qeq_bool_iff in Hz. lra.
    + cbn [Py.bind]. do 2 eexists. reflexivity.
  - unfold children_stats. now rewrite count_trees_leaves.
Qed.

Lemma children_stats_defined_witness :
  (exists mean var, children_stats [Fixture.binary_tree] = Ok (mean, var)) /\
  children_stats
    [{| span := 10000%Q; nodes := [0; 1]%nat; num_children := fun _ => 0%nat |}]
  = Raise ZeroDivisionError.
Proof.
  split.
  - apply (children_stats_defined [Fixture.binary_tree]).
    + repeat constructor.
    + apply Exists_cons_hd. apply Exists_cons_hd. simpl. lia.
  - apply (children_stats_defined
             [{| span := 10000%Q; nodes := [0; 1]%nat; num_children := fun _ => 0%nat |}]).
    + repeat constructor.
    + intro H. inversion H as [? ? Hhd | ? ? Htl]; subst; [| inversion Htl].
      unfold has_internal_node in Hhd. cbn [nodes num_children] in Hhd.
      inversion Hhd as [? ? H0 | ? ? H0]; subst; [lia |].
      inversion H0 as [? ? H1 | ? ? H1]; subst; [lia | inversion H1].
Defined.



(** ** The chromosome named by a file *)

Section ChromosomeName.
Local Open Scope string_scope.

Lemma take_digits_split (s : string) :
  exists post, s = Str.take_digits s ++ post /\ starts_with_digit post = false.
Proof.
  induction s as [| c t IH].
  - exists "". split; reflexivity.
  - cbn [Str.take_digits]. destruct (Str.is_digit c) eqn:Hc.
    + destruct IH as (post & Ht & Hpost). exists post. split; [| assumption].
      cbn [append]. now rewrite <- Ht.
    + exists (String c t). split; [reflexivity | exact Hc].
Qed.

Lemma take_digits_only (s : string) : digits_only (Str.take_digits s) = true.
Proof.
  induction s as [| c t IH]; [reflexivity |].
  cbn [Str.take_digits]. destruct (Str.is_digit c) eqn:Hc; [| reflexivity].
  cbn [digits_only]. now rewrite Hc, IH.
Qed.

Lemma append_length (a b : string) :
  String.length (a ++ b) = (String.length a + String.length b)%nat.
Proof. induction a as [| c a IH]; cbn [append String.length]; [reflexivity | now rewrite IH]. Qed.

Lemma no_token_in_chr : ~ has_chromosome_token "chr".
Proof.
  intros (pre & d & post & H & _).
  apply (f_equal String.length) in H.
  rewrite !append_length in H. cbn [String.length] in H. lia.
Qed.

(** Where the search finds a name: behind a part of the file name that
    holds no earlier match, the name being all the digits there. *)
Lemma search_chr_found (s : string) : forall chr,
  Str.search_chr s = Some chr ->
  exists pre digits post,
    s = pre ++ chr ++ post /\ chr = "chr" ++ digits /\
    digits <> "" /\ digits_only digits = true /\
    starts_with_digit post = false /\
    ~ has_chromosome_token (pre ++ "chr").
Proof.
  induction s as [| c t IH]; intros chr Hs; [discriminate |].
  cbn [Str.search_chr] in Hs.
  destruct (prefix "chr" (String c t)) eqn:Hp.
  - apply prefix_chr in Hp.
    remember (Str.drop 3 (String c t)) as r0 eqn:Hr0. clear Hr0.
    cbn [append] in Hp. injection Hp as -> ->.
    destruct (take_digits_split r0) as (post & Hsplit & Hpost).
    pose proof (take_digits_only r0) as Honly.
    destruct (Str.take_digits r0) as [| d ds] eqn:Hd.
    + destruct (IH chr Hs) as (pre & digits & post' & Ht & Hchr & Hne & Hdig & Hpost' & Hleft).
      exists (String "c" pre), digits, post'.
      repeat split; try assumption; [cbn [append]; now rewrite <- Ht |].
      intros (pre' & d & rest & Heq & Hdd).
      cbn [append] in Hsplit. subst post.
      destruct pre' as [| c' pre'].
      * cbn [append] in Heq. injection Heq as Hrest.
        destruct pre as [| p1 [| p2 [| p3 pre]]]; cbn [append] in Hrest, Ht.
        -- discriminate Hrest.
        -- injection Hrest as _ Hrest. discriminate Hrest.
        -- injection Hrest as _ _ Hrest _. subst d. discriminate Hdd.
        -- injection Hrest as _ _ Hrest _. subst p3.
           injection Ht as _ _ Ht. subst r0.
           cbn [starts_with_digit] in Hpost. congruence.
      * cbn [append] in Heq. injection Heq as _ Heq.
        apply Hleft. exists pre', d, rest. now split.
    + injection Hs as <-.
      exists "", (String d ds), post. cbn [append].
      repeat split; try assumption.
      * now rewrite Hsplit at 1.
      * discriminate.
      * apply no_token_in_chr.
  - destruct (IH chr Hs) as (pre & digits & post' & Ht & Hchr & Hne & Hdig & Hpost' & Hleft).
    exists (String c pre), digits, post'.
    repeat split; try assumption; [cbn [append]; now rewrite <- Ht |].
    intros (pre' & d & rest & Heq & Hdd).
    destruct pre' as [| c' pre'].
    + cbn [append] in Heq. injection Heq as Hc Hrest. subst c.
      rewrite Ht in Hp.
      destruct pre as [| p1 [| p2 pre]]; cbn [append] in Hrest.
      * discriminate Hrest.
      * injection Hrest as _ Hrest. discriminate Hrest.
      * injection Hrest as -> -> _.
        assert (Htrue : prefix "chr" (String "c" (String "h" (String "r" pre) ++ chr ++ post')) = true)
          by (apply prefix_correct; rewrite Hchr; destruct pre; reflexivity).
        congruence.
    + cbn [append] in Heq. injection Heq as _ Heq.
      apply Hleft. exists pre', d, rest. now split.
Qed.

End ChromosomeName.

(** X16: which recombination map is used.  For a file name with a
    chromosome token, the one chromosome [setup_sample_file] asks
    stdpopsim for is the leftmost ["chr"] followed by a digit, taken with
    every digit that follows it: a failure for that name is the failure
    of the call, and a rate array that is returned consists of the 0.0
    sentinel and the gaps between the inference sites converted with that
    chromosome's map. *)
Theorem chromosome_map_requested {AncestorData TreeSequence : Type}
    (E : Engine AncestorData TreeSequence) (filename : string) (sd : SampleData) :
  Str.endswith filename ".samples" = true ->
  tsinfer_load E filename = Done sd ->
  has_chromosome_token filename ->
  exists pre digits post,
    let chr := ("chr" ++ digits)%string in
    filename = (pre ++ chr ++ post)%string /\
    digits <> ""%string /\ digits_only digits = true /\
    starts_with_digit post = false /\
    ~ has_chromosome_token (pre ++ "chr") /\
    (forall msg, get_chromosome_map E chr = Fails msg ->
       setup_sample_file E filename = Raise (ExternalError msg)) /\
    (forall sd' rho prefix ts,
       setup_sample_file E filename = Ok (sd', rho, prefix, ts) ->
       exists chr_map distances,
         get_chromosome_map E chr = Done chr_map /\
         physical_to_genetic chr_map
           (Np.mask_select (sites_position sd) (sites_inference sd)) = Ok distances /\
         rho = Np.Fin 0%Q :: map Np.Fin (Np.diff distances)).
Proof.
  intros Hsuffix Hload Htoken.
  destruct (search_chr_some filename Htoken) as (chr & Hchr).
  destruct (search_chr_found filename chr Hchr)
    as (pre & digits & post & Hname & -> & Hne & Hdig & Hpost & Hleft).
  exists pre, digits, post. cbn zeta.
  repeat split; try assumption.
  - intros msg Hmap. unfold setup_sample_file.
    rewrite Hsuffix, Hload, Hchr. cbn [negb of_outcome Py.bind].
    now rewrite Hmap.
  - intros sd' rho prefix ts. unfold setup_sample_file.
    rewrite Hsuffix, Hload, Hchr. cbn [negb of_outcome Py.bind].
    destruct (get_chromosome_map E ("chr" ++ digits)) as [chr_map | msg];
      cbn [of_outcome Py.bind]; [| discriminate].
    destruct (physical_to_genetic chr_map _) as [distances | e] eqn:Hphys;
      cbn [Py.bind]; [| discriminate].
    intro H. inversion H. subst. exists chr_map, distances. now repeat split.
Qed.

Lemma chromosome_map_requested_witness :
  let E := Fixture.engine (fun _ => false) Fixture.sd in
  let sd := {| path := Some "chr20.samples"%string;
               sites_position := [0; 100; 500; 2000; 9999]%Q;
               sites_inference := [true; true; true; true; true];
               sequence_length := 10000%Q;
               genotypes := [] |} in
  exists pre digits post,
    let chr := ("chr" ++ digits)%string in
    "chr20.samples"%string = (pre ++ chr ++ post)%string /\
    digits <> ""%string /\ digits_only digits = true /\
    starts_with_digit post = false /\
    ~ has_chromosome_token (pre ++ "chr") /\
    (forall msg, get_chromosome_map E chr = Fails msg ->
       setup_sample_file E "chr20.samples" = Raise (ExternalError msg)) /\
    (forall sd' rho prefix ts,
       setup_sample_file E "chr20.samples" = Ok (sd', rho, prefix, ts) ->
       exists chr_map distances,
         get_chromosome_map E chr = Done chr_map /\
         physical_to_genetic chr_map
           (Np.mask_select (sites_position sd) (sites_inference sd)) = Ok distances /\
         rho = Np.Fin 0%Q :: map Np.Fin (Np.diff distances)).
Proof.
  intros E sd.
  apply (chromosome_map_requested E "chr20.samples" sd).
  - reflexivity.
  - reflexivity.
  - exists ""%string, "2"%char, "0.samples"%string. split; reflexivity.
Defined.

(** ** The exceptions of a run *)

Section Exceptions.





Context {AncestorData TreeSequence : Type}.




End Exceptions.


